(** * FinancialChatbot: the slot-filling dialogue engine of [chatbot.py]

    A shallow embedding of the class [FinancialChatbot] and the properties
    of its turn-processing methods.

    - A Python [str] is a Rocq [string]; one [ascii] stands for one code
      point in the range U+0000..U+00FF.
    - [self.fields] is a [gmap string value]; [self.current_index] is a
      [nat] (it starts at 0 and is only ever incremented);
      [self.conversation_order] is never assigned after [__init__] and is
      the constant [conversation_order].
    - The methods run in the monad [M]: they thread the object, the outside
      world (the file [responses.csv] and a log of the external calls) and
      Python exceptions.
    - The two external services, the OpenAI chat completion and the pandas
      to_csv call, are given by an environment [Env] that says how they answer
      during one method call. *)

From Stdlib Require Import Ascii String.
From stdpp Require Import base option list gmap strings fin_maps.

Open Scope string_scope.

(** ** Python strings *)

Module PyStr.

(** [str.isspace] on one character, for code points below 256. *)
Definition isspace (c : ascii) : bool :=
  let n := nat_of_ascii c in
  (((9 <=? n) && (n <=? 13)) || ((28 <=? n) && (n <=? 32))
   || (n =? 133) || (n =? 160))%nat.

(** [str.lower] on one character, for code points below 256. *)
Definition lower_char (c : ascii) : ascii :=
  let n := nat_of_ascii c in
  if (((65 <=? n) && (n <=? 90))
      || ((192 <=? n) && (n <=? 222) && negb (n =? 215)))%nat
  then ascii_of_nat (n + 32) else c.

Fixpoint lower (s : string) : string :=
  match s with
  | EmptyString => EmptyString
  | String c s' => String (lower_char c) (lower s')
  end.

Fixpoint lstrip (s : string) : string :=
  match s with
  | EmptyString => EmptyString
  | String c s' => if isspace c then lstrip s' else s
  end.

Fixpoint reverse_onto (s acc : string) : string :=
  match s with
  | EmptyString => acc
  | String c s' => reverse_onto s' (String c acc)
  end.

Definition reverse (s : string) : string := reverse_onto s EmptyString.

Definition rstrip (s : string) : string := reverse (lstrip (reverse s)).

(** [s.strip()] *)
Definition strip (s : string) : string := rstrip (lstrip s).

(** The word read so far, kept reversed, becomes a token if it is not
    empty. *)
Definition flush (word : string) : list string :=
  match word with
  | EmptyString => []
  | _ => [reverse word]
  end.

Fixpoint split_from (word : string) (s : string) : list string :=
  match s with
  | EmptyString => flush word
  | String c s' =>
      if isspace c then (flush word ++ split_from EmptyString s')%list
      else split_from (String c word) s'
  end.

(** [s.split()]: the maximal runs of characters that are not whitespace. *)
Definition split (s : string) : list string := split_from EmptyString s.

(** [sep.join(l)] *)
Fixpoint join (sep : string) (l : list string) : string :=
  match l with
  | [] => EmptyString
  | [x] => x
  | x :: rest => x +:+ sep +:+ join sep rest
  end.

End PyStr.

(** ** Values, the object, the world *)

(** What a slot of [self.fields] holds: [None], a [str], or a list of
    [str]. *)
Inductive value :=
| PyNone
| PyStr (s : string)
| PyList (l : list string).

Record Chatbot := mkChatbot {
  fields : gmap string value;
  current_index : nat
}.

(** The exceptions the methods can let escape. *)
Inductive exn :=
| KeyError (key : string)
| IndexError
| AttributeError.

Inductive result (A : Type) :=
| Ok (a : A)
| Raise (e : exn).
Arguments Ok {A} a.
Arguments Raise {A} e.

(** One line of [responses.csv]. A header names the columns of the
    one-row data frame (their order is not modelled). *)
Inductive csv_line :=
| CsvHeader (columns : gset string)
| CsvRow (row : gmap string value).

(** The external calls a method makes, in order. *)
Inductive effect :=
| ChatCompletion (system_content user_content : string)
| ToCsv (row : gmap string value) (header : bool)
| Print (text : string).

Record World := mkWorld {
  responses_csv : option (list csv_line);
  effects : list effect
}.

(** What [openai.ChatCompletion.create(...)] followed by
    [response.choices[0].message['content']] gives: the reply's text, or
    an exception raised anywhere inside the [try] block. *)
Inductive api_result :=
| ApiContent (content : string)
| ApiException (message : string).

Record Env := mkEnv {
  openai_create : string -> string -> api_result;
  to_csv_exception : option string
}.

(** ** The monad of the methods *)

Record Outcome (A : Type) := Out {
  returned : result A;
  self_after : Chatbot;
  world_after : World
}.
Arguments Out {A} returned self_after world_after.
Arguments returned {A} o.
Arguments self_after {A} o.
Arguments world_after {A} o.

Definition M (A : Type) : Type := Chatbot -> World -> Outcome A.

Definition ret {A} (a : A) : M A := fun self w => Out (Ok a) self w.

Definition raise {A} (e : exn) : M A := fun self w => Out (Raise e) self w.

Definition bind {A B} (m : M A) (k : A -> M B) : M B := fun self w =>
  match m self w with
  | Out (Ok a) self' w' => k a self' w'
  | Out (Raise e) self' w' => Out (Raise e) self' w'
  end.

#[export] Instance M_ret : MRet M := @ret.
#[export] Instance M_bind : MBind M := fun A B k m => bind m k.

(** [self.fields[key]] *)
Definition getitem (key : string) : M value := fun self w =>
  match fields self !! key with
  | Some v => Out (Ok v) self w
  | None => Out (Raise (KeyError key)) self w
  end.

(** [self.fields[key] = v] *)
Definition setitem (key : string) (v : value) : M unit := fun self w =>
  Out (Ok tt) (mkChatbot (<[key := v]> (fields self)) (current_index self)) w.

(** [self.current_index += 1] *)
Definition incr_index : M unit := fun self w =>
  Out (Ok tt) (mkChatbot (fields self) (current_index self + 1)) w.

Definition perform (e : effect) : M unit := fun self w =>
  Out (Ok tt) self (mkWorld (responses_csv w) (effects w ++ [e])%list).

(** ** [__init__] *)

Definition init_fields : gmap string value :=
  list_to_map [
    ("loan_amount", PyNone); ("promotion_applied", PyNone);
    ("loan_purpose", PyNone); ("how_heard", PyNone);
    ("first_name", PyNone); ("last_name", PyNone);
    ("membership_status", PyNone); ("account_number", PyNone);
    ("telephone", PyNone); ("email", PyNone);
    ("date_of_birth", PyNone); ("marital_status", PyNone);
    ("whatsapp_opt_in", PyNone); ("employer_name", PyNone);
    ("self_employed", PyNone); ("primary_income", PyNone);
    ("additional_income", PyNone); ("total_income", PyNone);
    ("commitments", PyList []); ("declaration", PyNone);
    ("uploaded_ids", PyList []); ("uploaded_documents", PyList []);
    ("reference1_name", PyNone); ("reference1_relation", PyNone);
    ("reference1_address", PyNone); ("reference1_contact", PyNone);
    ("reference1_occupation", PyNone); ("reference2_name", PyNone);
    ("reference2_relation", PyNone); ("reference2_address", PyNone);
    ("reference2_contact", PyNone); ("reference2_occupation", PyNone)
  ].

Definition conversation_order : list string := [
  "first_name"; "last_name"; "telephone"; "email"; "date_of_birth";
  "loan_amount"; "loan_purpose"; "membership_status";
  "marital_status"; "employer_name"; "self_employed";
  "primary_income"; "additional_income";
  "reference1_name"; "reference1_relation"; "reference1_contact";
  "reference2_name"; "reference2_relation"; "reference2_contact";
  "declaration"; "whatsapp_opt_in"
].

Definition init : Chatbot := mkChatbot init_fields 0.

(** ** [extract_details] *)

Definition extract_prompt (field : string) : string :=
  "Extract " +:+ field
  +:+ " from the following text. Return only the extracted value or None.".

Definition extract_details (env : Env) (field user_input : string)
  : M (option string) :=
  perform (ChatCompletion (extract_prompt field) user_input);;
  match openai_create env (extract_prompt field) user_input with
  | ApiContent content =>
      let extracted_value := PyStr.strip content in
      ret (if String.eqb (PyStr.lower extracted_value) "none"
           then None else Some extracted_value)
  | ApiException e =>
      perform (Print ("OpenAI API error: " +:+ e));;
      ret None
  end.

(** ** [get_next_missing_field] *)

(** The [for] loop over the slice. *)
Fixpoint first_missing (order : list string) : M (option string) :=
  match order with
  | [] => ret None
  | field :: rest =>
      v ← getitem field;
      match v with
      | PyNone => ret (Some field)
      | _ => first_missing rest
      end
  end.

Definition get_next_missing_field : M (option string) := fun self w =>
  first_missing (drop (current_index self) conversation_order) self w.

(** ** [generate_question] *)

Definition questions : list (string * string) := [
  ("first_name", "Could you please tell me your first name?");
  ("last_name", "What is your last name?");
  ("telephone", "What is the best contact number to reach you?");
  ("email", "What is your email address?");
  ("date_of_birth",
    "When were you born? (Please provide in DD/MM/YYYY format)");
  ("loan_amount", "What loan amount are you looking for and its purpose?");
  ("loan_purpose", "Could you elaborate on the purpose of your loan?");
  ("membership_status", "Are you currently a member of our program?");
  ("marital_status", "What is your marital status?");
  ("employer_name", "Who is your current employer?");
  ("self_employed", "Are you self-employed?");
  ("primary_income", "What is your primary monthly income?");
  ("additional_income", "Do you have any additional sources of income?");
  ("reference1_name", "Could you provide the name of your first reference?");
  ("reference1_relation", "What is your relationship with this reference?");
  ("reference1_contact",
    "What is the contact number for your first reference?");
  ("reference2_name",
    "Could you provide the name of your second reference?");
  ("reference2_relation",
    "What is your relationship with this second reference?");
  ("reference2_contact",
    "What is the contact number for your second reference?");
  ("declaration", "Do you agree to our terms and conditions?");
  ("whatsapp_opt_in", "Would you like to opt-in for WhatsApp notifications?")
].

(** [d.get(key)] on a dict literal. *)
Fixpoint dict_get (d : list (string * string)) (key : string) : option string :=
  match d with
  | [] => None
  | (k, v) :: d' => if String.eqb k key then Some v else dict_get d' key
  end.

Definition generate_question (field : string) : string :=
  match dict_get questions field with
  | Some q => q
  | None => "Please provide information about " +:+ field
  end.

(** ** [save_to_csv] *)

Definition append_row (row : gmap string value) (file : option (list csv_line))
  : list csv_line :=
  match file with
  | None => [CsvHeader (dom row); CsvRow row]
  | Some lines => (lines ++ [CsvRow row])%list
  end.

Definition file_exists (file : option (list csv_line)) : bool :=
  match file with Some _ => true | None => false end.

(** The [try] block builds the one-row data frame and appends it, with a
    header when the file does not exist yet; an exception raised inside it
    is printed and goes no further. *)
Definition save_to_csv (env : Env) : M unit := fun self w =>
  let call := ToCsv (fields self) (negb (file_exists (responses_csv w))) in
  match to_csv_exception env with
  | None =>
      Out (Ok tt) self
          (mkWorld (Some (append_row (fields self) (responses_csv w)))
                   (effects w ++ [call])%list)
  | Some e =>
      Out (Ok tt) self
          (mkWorld (responses_csv w)
                   (effects w ++ [call; Print ("Error saving to CSV: " +:+ e)])%list)
  end.

(** ** [process_next_field] and [process_user_input] *)

Definition completed : string :=
  "Thank you! Your application has been completed and saved.".

Definition process_next_field (env : Env) : M string :=
  next_field ← get_next_missing_field;
  match next_field with
  | None => save_to_csv env;; ret completed
  | Some field => ret (generate_question field)
  end.

(** [if extracted_value:] is false for [None] and for the empty string. *)
Definition truthy (extracted_value : option string) : bool :=
  match extracted_value with
  | None => false
  | Some EmptyString => false
  | Some _ => true
  end.

(** The return value of [extract_details] as a slot value. *)
Definition of_extracted (extracted_value : option string) : value :=
  match extracted_value with
  | None => PyNone
  | Some v => PyStr v
  end.

(** [next_field in ['first_name', 'last_name']] *)
Definition is_name_field (field : string) : bool :=
  String.eqb field "first_name" || String.eqb field "last_name".

(** The branch for the name fields: it splits the raw text, not the
    extracted value. *)
Definition store_names (user_input : string) : M unit :=
  let names := PyStr.split user_input in
  match names with
  | [] => raise IndexError
  | first :: rest =>
      setitem "first_name" (PyStr first);;
      if (1 <? length names)%nat
      then setitem "last_name" (PyStr (PyStr.join " " rest));; incr_index
      else ret tt
  end.

Definition process_user_input (env : Env) (user_input : string) : M string :=
  next_field ← get_next_missing_field;
  match next_field with
  | None => save_to_csv env;; ret completed
  | Some next_field =>
      extracted_value ← extract_details env next_field user_input;
      if truthy extracted_value then
        (if is_name_field next_field
         then store_names user_input
         else setitem next_field (of_extracted extracted_value));;
        incr_index;;
        process_next_field env
      else ret (generate_question next_field)
  end.

(** ** [handle_commitments] and [handle_uploaded_files] *)

(** [self.fields[key].append(user_input)]; [None] and [str] have no
    [append]. *)
Definition append_to (key user_input : string) : M unit :=
  v ← getitem key;
  match v with
  | PyList l => setitem key (PyList (l ++ [user_input])%list)
  | _ => raise AttributeError
  end.

Definition handle_commitments (env : Env) (user_input : string) : M string :=
  v ← getitem "commitments";
  match v with
  | PyNone => setitem "commitments" (PyList [user_input])
  | PyList l => setitem "commitments" (PyList (l ++ [user_input])%list)
  | PyStr _ => raise AttributeError
  end;;
  incr_index;;
  process_next_field env.

Definition handle_uploaded_files (env : Env) (field user_input : string)
  : M string :=
  (if String.eqb field "uploaded_ids" then append_to "uploaded_ids" user_input
   else if String.eqb field "uploaded_documents"
        then append_to "uploaded_documents" user_input
        else ret tt);;
  incr_index;;
  process_next_field env.

(** ** Sessions *)

(** The states a session can be in: the fresh object, and what the three
    entry points leave behind, whatever they are given and whatever the
    outside world answers, also when they end in an exception. *)
Inductive reachable : Chatbot -> Prop :=
| reach_init : reachable init
| reach_process_user_input env user_input w self :
    reachable self ->
    reachable (self_after (process_user_input env user_input self w))
| reach_handle_commitments env user_input w self :
    reachable self ->
    reachable (self_after (handle_commitments env user_input self w))
| reach_handle_uploaded_files env field user_input w self :
    reachable self ->
    reachable (self_after (handle_uploaded_files env field user_input self w)).

(** A conversation: [process_user_input] called once per turn, each turn
    with its own answers of the outside world. *)
Fixpoint converse (turns : list (Env * string)) (self : Chatbot) (w : World)
  : list (result string) * Chatbot * World :=
  match turns with
  | [] => ([], self, w)
  | (env, user_input) :: turns' =>
      let o := process_user_input env user_input self w in
      let '(rs, self', w') := converse turns' (self_after o) (world_after o) in
      (returned o :: rs, self', w')
  end.

Definition is_to_csv (e : effect) : bool :=
  match e with ToCsv _ _ => true | _ => false end.

(** How often the persistence sink has been called. *)
Definition to_csv_calls (w : World) : nat :=
  length (filter (fun e => is_to_csv e = true) (effects w)).

(** A record is complete when every plan field holds something other than
    [None]. *)
Definition filled (self : Chatbot) (field : string) : Prop :=
  exists v, fields self !! field = Some v /\ v <> PyNone.

Definition complete (self : Chatbot) : Prop :=
  forall field, field ∈ conversation_order -> filled self field.

(** ** Functions the properties are stated with *)

(** What the loop of [get_next_missing_field] returns, as a function of the
    dict alone. *)
Fixpoint scan (fs : gmap string value) (order : list string)
  : result (option string) :=
  match order with
  | [] => Ok None
  | field :: rest =>
      match fs !! field with
      | None => Raise (KeyError field)
      | Some PyNone => Ok (Some field)
      | Some _ => scan fs rest
      end
  end.

Definition next_missing (self : Chatbot) : result (option string) :=
  scan (fields self) (drop (current_index self) conversation_order).

(** What [extract_details] returns, as a function of the service's answer. *)
Definition extracted (env : Env) (field user_input : string) : option string :=
  match openai_create env (extract_prompt field) user_input with
  | ApiContent content =>
      if String.eqb (PyStr.lower (PyStr.strip content)) "none"
      then None else Some (PyStr.strip content)
  | ApiException _ => None
  end.

Definition extract_effects (env : Env) (field user_input : string)
  : list effect :=
  ChatCompletion (extract_prompt field) user_input ::
  match openai_create env (extract_prompt field) user_input with
  | ApiContent _ => []
  | ApiException e => [Print ("OpenAI API error: " +:+ e)]
  end.

Definition log (es : list effect) (w : World) : World :=
  mkWorld (responses_csv w) (effects w ++ es).

(** The object after [store_names]. *)
Definition named (user_input : string) (self : Chatbot) : Chatbot :=
  match PyStr.split user_input with
  | [] => self
  | [first] =>
      mkChatbot (<["first_name" := PyStr first]> (fields self))
                (current_index self)
  | first :: rest =>
      mkChatbot (<["last_name" := PyStr (PyStr.join " " rest)]>
                   (<["first_name" := PyStr first]> (fields self)))
                (current_index self + 1)
  end.

(** The object after the branch of [process_user_input] that stores an
    extracted value, up to and including [self.current_index += 1]. *)
Definition stored (next_field : string) (extracted_value : option string)
  (user_input : string) (self : Chatbot) : Chatbot :=
  if is_name_field next_field then
    match PyStr.split user_input with
    | [] => self
    | _ => mkChatbot (fields (named user_input self))
                     (current_index (named user_input self) + 1)
    end
  else mkChatbot (<[next_field := of_extracted extracted_value]> (fields self))
                 (current_index self + 1).

(** The slot [handle_uploaded_files] appends to, if any. *)
Definition upload_slot (field : string) : option string :=
  if String.eqb field "uploaded_ids" then Some "uploaded_ids"
  else if String.eqb field "uploaded_documents" then Some "uploaded_documents"
  else None.

Definition repeatable : list string :=
  ["commitments"; "uploaded_ids"; "uploaded_documents"].

(** By how much a turn that stores an extracted value moves the pointer. *)
Definition advance (next_field user_input : string) : nat :=
  if is_name_field next_field then
    match PyStr.split user_input with
    | [] => 0
    | [_] => 1
    | _ => 2
    end
  else 1.

(** Every entry point either leaves the object as it was or moves the
    pointer forward. *)
Definition progress (self self' : Chatbot) : Prop :=
  self' = self \/ current_index self < current_index self'.

(** In every state of a session the plan fields are keys of the dict, the
    repeatable slots hold lists, and an object whose pointer is still 0 is
    the fresh one. *)
Record well_formed (self : Chatbot) : Prop := {
  wf_keys : forall field,
    field ∈ conversation_order -> is_Some (fields self !! field);
  wf_lists : forall key,
    key ∈ repeatable -> exists l, fields self !! key = Some (PyList l);
  wf_fresh : current_index self = 0 -> self = init
}.

(** What [handle_commitments] and [handle_uploaded_files] do to the plan:
    no plan field changes, the pointer moves by exactly one, and the next
    missing field is looked for from the position after the old pointer. *)
Definition steps_over (self : Chatbot) (w : World) (o : Outcome string) : Prop :=
  (forall field, field ∈ conversation_order ->
     fields (self_after o) !! field = fields self !! field) /\
  current_index (self_after o) = current_index self + 1 /\
  returned (get_next_missing_field (self_after o) (world_after o))
  = returned (first_missing (drop (current_index self + 1) conversation_order)
                self w).

(** ** [main.py]: the Streamlit page *)

(** One entry of [st.session_state.messages]. *)
Record message := mkMessage {
  role : string;
  content : string
}.

(** [st.session_state]: the two keys the script uses, each set or not. *)
Record SessionState := mkSessionState {
  chatbot : option Chatbot;
  messages : option (list message)
}.

(** What the script puts on the page, in the order of the calls:
    [st.title], a [st.chat_message] container with the [st.markdown] calls
    made inside it, and [st.chat_input]. *)
Inductive element :=
| Title (text : string)
| ChatMessage (name : string) (markdown : list string)
| ChatInput (placeholder : string).

(** One run of the script: the exception that ended it, if any, the
    session state and the world it leaves, and the page. *)
Record Run := mkRun {
  run_raised : option exn;
  run_state : SessionState;
  run_world : World;
  run_page : list element
}.

Definition page_title : string :=
  "NIO Digital Venture Capital Application Chatbot".

Definition input_placeholder : string := "Tell me about your loan application".

(** The page down to the input box: the title and the stored messages. *)
Definition page_top (msgs : list message) : list element :=
  (Title page_title
   :: map (fun m => ChatMessage (role m) [content m]) msgs
   ++ [ChatInput input_placeholder])%list.

(** [main()], run with what [st.chat_input] returns: [None] when nothing
    was submitted. [if prompt := ...] is false for [None] and for the empty
    string. *)
Definition main (env : Env) (prompt : option string)
  (state : SessionState) (w : World) : Run :=
  let bot := match chatbot state with Some bot => bot | None => init end in
  let msgs := match messages state with Some msgs => msgs | None => [] end in
  match prompt with
  | Some text =>
      if truthy prompt then
        let msgs' := (msgs ++ [mkMessage "user" text])%list in
        let o := process_user_input env text bot w in
        match returned o with
        | Ok response =>
            mkRun None
              (mkSessionState (Some (self_after o))
                 (Some (msgs' ++ [mkMessage "assistant" response])%list))
              (world_after o)
              (page_top msgs
               ++ [ChatMessage "user" [text];
                   ChatMessage "assistant" [response]])%list
        | Raise e =>
            mkRun (Some e)
              (mkSessionState (Some (self_after o)) (Some msgs'))
              (world_after o)
              (page_top msgs
               ++ [ChatMessage "user" [text]; ChatMessage "assistant" []])%list
        end
      else mkRun None (mkSessionState (Some bot) (Some msgs)) w (page_top msgs)
  | None => mkRun None (mkSessionState (Some bot) (Some msgs)) w (page_top msgs)
  end.

(** A browser session: the script run once per interaction. *)
Fixpoint browse (runs : list (Env * option string))
  (state : SessionState) (w : World) : SessionState * World :=
  match runs with
  | [] => (state, w)
  | (env, prompt) :: runs' =>
      let r := main env prompt state w in
      browse runs' (run_state r) (run_world r)
  end.

(** A new browser session: nothing in [st.session_state]. *)
Definition new_session : SessionState := mkSessionState None None.

(** What a conversation leaves in [messages]: for each turn the user's
    text, then the reply when the engine returned one. *)
Fixpoint transcript (turns : list (Env * string)) (answers : list (result string))
  : list message :=
  match turns, answers with
  | (_, text) :: turns', reply :: answers' =>
      (mkMessage "user" text
       :: match reply with
          | Ok response => [mkMessage "assistant" response]
          | Raise _ => []
          end
       ++ transcript turns' answers')%list
  | _, _ => []
  end.

(** ** Predicates on strings and turns *)

(** Every character is whitespace. *)
Fixpoint all_space (s : string) : bool :=
  match s with
  | EmptyString => true
  | String c s' => PyStr.isspace c && all_space s'
  end.

(** No character is whitespace. *)
Fixpoint no_space (s : string) : bool :=
  match s with
  | EmptyString => true
  | String c s' => negb (PyStr.isspace c) && no_space s'
  end.

(** What [split] produces: a non-empty word without whitespace. *)
Definition token (s : string) : Prop := s <> "" /\ no_space s = true.

(** A turn in which the user gives some text and the service extracts a
    value from it, whatever the field asked for. *)
Definition cooperative (turn : Env * string) : Prop :=
  PyStr.split turn.2 <> [] /\
  forall field, truthy (extracted turn.1 field turn.2) = true.

Definition is_row (line : csv_line) : Prop :=
  match line with CsvRow _ => True | CsvHeader _ => False end.

(** The record is saved exactly when the completion message is returned:
    one more call of to_csv in that case, none otherwise. *)
Definition saves_iff_completed (w : World) (o : Outcome string) : Prop :=
  (returned o = Ok completed ->
   to_csv_calls (world_after o) = to_csv_calls w + 1) /\
  (returned o <> Ok completed ->
   to_csv_calls (world_after o) = to_csv_calls w).

(** How [responses.csv] may differ after some calls: lines already there
    stay, in place; then come data rows only, after one header if the file
    is new. *)
Definition csv_grows (before after : option (list csv_line)) : Prop :=
  match before with
  | Some lines =>
      exists rows, after = Some (lines ++ rows)%list /\ Forall is_row rows
  | None =>
      after = None \/
      exists columns rows,
        after = Some (CsvHeader columns :: rows) /\ rows <> [] /\
        Forall is_row rows
  end.

(** The runs of the page in which the user submitted some text. *)
Fixpoint submitted (runs : list (Env * option string)) : list (Env * string) :=
  match runs with
  | [] => []
  | (env, prompt) :: runs' =>
      match prompt with
      | Some text =>
          if truthy prompt then (env, text) :: submitted runs'
          else submitted runs'
      | None => submitted runs'
      end
  end.

(** What an entry point may answer: the completion message, or the
    question the table holds for some plan field. *)
Definition plan_reply (r : string) : Prop :=
  r = completed \/
  exists field,
    field ∈ conversation_order /\ dict_get questions field = Some r.

(** ** Fields filled by a call *)

(** [field] held [None] in [self] and holds a value in [self']. *)
Definition was_filled (self self' : Chatbot) (field : string) : bool :=
  match fields self !! field, fields self' !! field with
  | Some PyNone, Some PyNone => false
  | Some PyNone, Some _ => true
  | _, _ => false
  end.

(** The plan fields a call has filled, in plan order, when it takes the
    object from [self] to [self']. *)
Definition newly_filled (self self' : Chatbot) : list string :=
  filter (fun field => was_filled self self' field = true) conversation_order.


(** ** Fixtures *)

(** No [responses.csv] yet, nothing called yet. *)
Definition blank : World := mkWorld None [].

(** The service answers every request with [content]; to_csv works. *)
Definition replies (content : string) : Env :=
  mkEnv (fun _ _ => ApiContent content) None.

(** The service cannot be reached; to_csv works. *)
Definition unavailable : Env :=
  mkEnv (fun _ _ => ApiException "Connection refused") None.

(** A record in which every plan field has been answered. *)
Definition answered : Chatbot :=
  mkChatbot
    (foldr (fun field fs => <[field := PyStr "yes"]> fs) init_fields
           conversation_order)
    0.

(** A user who gives the first name and the last name in two turns, then
    answers the other nineteen questions. *)
Definition two_turn_names : list (Env * string) :=
  (replies "Jane", "Jane") :: (replies "Doe", "Doe")
  :: replicate 19 (replies "yes", "yes").

(** The object after the first answer is a single-token first name. *)
Definition after_jane : Chatbot :=
  self_after (process_user_input (replies "Jane") "Jane" init blank).

(** The object after one commitment is reported in a fresh session. *)
Definition after_commitment : Outcome string :=
  handle_commitments (replies "") "car loan, 200 a month" init blank.

Ltac unfold_M := unfold mbind, M_bind, bind, ret, raise, perform in *.

(** * Properties *)

(** ** Python strings on examples *)

Example split_jane_doe : PyStr.split "  Jane   van Doe " = ["Jane"; "van"; "Doe"].
Proof. reflexivity. Qed.

Example strip_none : PyStr.lower (PyStr.strip "  NoNe ") = "none".
Proof. reflexivity. Qed.

Example join_rest : PyStr.join " " ["van"; "Doe"] = "van Doe".
Proof. reflexivity. Qed.

(** ** The scan *)

Lemma first_missing_eq order self w :
  first_missing order self w = Out (scan (fields self) order) self w.
Proof.
  induction order as [|field rest IH]; [reflexivity|].
  cbn [first_missing scan]. unfold mbind, M_bind, bind, getitem.
  destruct (fields self !! field) as [[| |]|]; auto.
Qed.

Lemma get_next_missing_field_eq self w :
  get_next_missing_field self w = Out (next_missing self) self w.
Proof. apply first_missing_eq. Qed.

Lemma scan_Some fs order field :
  scan fs order = Ok (Some field) ->
  field ∈ order /\ fs !! field = Some PyNone.
Proof.
  induction order as [|f rest IH]; cbn; [discriminate|].
  destruct (fs !! f) as [[| |]|] eqn:E; try discriminate.
  - intros [= <-]. split; [left | done].
  - intros H. destruct (IH H). split; [by right | done].
  - intros H. destruct (IH H). split; [by right | done].
Qed.

Lemma scan_None fs order :
  scan fs order = Ok None <->
  forall field, field ∈ order -> exists v, fs !! field = Some v /\ v <> PyNone.
Proof.
  induction order as [|f rest IH]; cbn.
  - split; [|done]. intros _ field H. by apply elem_of_nil in H.
  - destruct (fs !! f) as [[| |]|] eqn:E.
    + split; [discriminate|]. intros H.
      destruct (H f) as (v & Hv & Hne); [left|]. congruence.
    + rewrite IH. split.
      * intros H field [->|Hin]%elem_of_cons; [|by eauto].
        eexists; split; [done|discriminate].
      * intros H field Hin. apply H. by right.
    + rewrite IH. split.
      * intros H field [->|Hin]%elem_of_cons; [|by eauto].
        eexists; split; [done|discriminate].
      * intros H field Hin. apply H. by right.
    + split; [discriminate|]. intros H.
      destruct (H f) as (v & Hv & Hne); [left|]. congruence.
Qed.

(** The scan reads the dict only at the names it is given. *)
Lemma scan_ext fs fs' order :
  (forall field, field ∈ order -> fs' !! field = fs !! field) ->
  scan fs' order = scan fs order.
Proof.
  induction order as [|f rest IH]; cbn; [done|]. intros H.
  rewrite (H f) by left. rewrite IH; [done|]. intros. apply H. by right.
Qed.

Lemma elem_of_drop_plan n field :
  field ∈ drop n conversation_order -> field ∈ conversation_order.
Proof.
  intros Hin. apply list_elem_of_In. apply list_elem_of_In in Hin.
  rewrite <- (take_drop n conversation_order). apply in_or_app. by right.
Qed.

(** ** The methods, one by one *)

Lemma extract_details_eq env field user_input self w :
  extract_details env field user_input self w
  = Out (Ok (extracted env field user_input)) self
        (log (extract_effects env field user_input) w).
Proof.
  unfold extract_details, extracted, extract_effects, log. unfold_M. cbn.
  destruct (openai_create env _ _); cbn; [reflexivity|].
  by rewrite <- app_assoc.
Qed.

Lemma save_to_csv_self env self w : self_after (save_to_csv env self w) = self.
Proof. unfold save_to_csv. by destruct (to_csv_exception env). Qed.

Lemma save_to_csv_returned env self w : returned (save_to_csv env self w) = Ok tt.
Proof. unfold save_to_csv. by destruct (to_csv_exception env). Qed.

Lemma save_to_csv_calls env self w :
  to_csv_calls (world_after (save_to_csv env self w)) = to_csv_calls w + 1.
Proof.
  unfold save_to_csv, to_csv_calls.
  destruct (to_csv_exception env); cbn [world_after effects];
    rewrite filter_app, length_app; reflexivity.
Qed.

Lemma process_next_field_eq env self w :
  process_next_field env self w
  = match next_missing self with
    | Ok None => Out (Ok completed) self (world_after (save_to_csv env self w))
    | Ok (Some field) => Out (Ok (generate_question field)) self w
    | Raise e => Out (Raise e) self w
    end.
Proof.
  unfold process_next_field. unfold_M. rewrite get_next_missing_field_eq.
  destruct (next_missing self) as [[field|]|e]; try reflexivity.
  unfold save_to_csv. by destruct (to_csv_exception env).
Qed.

Lemma process_next_field_self env self w :
  self_after (process_next_field env self w) = self.
Proof.
  rewrite process_next_field_eq. by destruct (next_missing self) as [[?|]|?].
Qed.

Lemma store_names_eq user_input self w :
  store_names user_input self w
  = Out (match PyStr.split user_input with
         | [] => Raise IndexError
         | _ => Ok tt
         end) (named user_input self) w.
Proof.
  unfold store_names, named. destruct (PyStr.split user_input) as [|first [|second rest]];
    reflexivity.
Qed.

Lemma process_user_input_eq env user_input self w :
  process_user_input env user_input self w
  = match next_missing self with
    | Ok None => Out (Ok completed) self (world_after (save_to_csv env self w))
    | Ok (Some next_field) =>
        let extracted_value := extracted env next_field user_input in
        let w' := log (extract_effects env next_field user_input) w in
        if truthy extracted_value then
          if is_name_field next_field && bool_decide (PyStr.split user_input = [])
          then Out (Raise IndexError) self w'
          else process_next_field env
                 (stored next_field extracted_value user_input self) w'
        else Out (Ok (generate_question next_field)) self w'
    | Raise e => Out (Raise e) self w
    end.
Proof.
  unfold process_user_input. unfold_M. rewrite get_next_missing_field_eq.
  destruct (next_missing self) as [[next_field|]|e]; try reflexivity.
  - rewrite extract_details_eq. cbn zeta.
    destruct (truthy _); [|reflexivity].
    unfold stored. destruct (is_name_field next_field); cbn [andb].
    + rewrite store_names_eq.
      destruct (PyStr.split user_input) as [|first rest] eqn:E.
      * rewrite bool_decide_eq_true_2 by done. unfold named. by rewrite E.
      * rewrite bool_decide_eq_false_2 by done. reflexivity.
    + reflexivity.
  - unfold save_to_csv. by destruct (to_csv_exception env).
Qed.

Lemma handle_commitments_eq env user_input self w :
  handle_commitments env user_input self w
  = match fields self !! "commitments" with
    | None => Out (Raise (KeyError "commitments")) self w
    | Some (PyStr _) => Out (Raise AttributeError) self w
    | Some PyNone =>
        process_next_field env
          (mkChatbot (<["commitments" := PyList [user_input]]> (fields self))
                     (current_index self + 1)) w
    | Some (PyList l) =>
        process_next_field env
          (mkChatbot (<["commitments" := PyList (l ++ [user_input])]> (fields self))
                     (current_index self + 1)) w
    end.
Proof.
  unfold handle_commitments, getitem. unfold_M.
  destruct (fields self !! "commitments") as [[| |]|]; reflexivity.
Qed.

Lemma append_to_eq key user_input self w :
  append_to key user_input self w
  = match fields self !! key with
    | None => Out (Raise (KeyError key)) self w
    | Some (PyList l) =>
        Out (Ok tt)
            (mkChatbot (<[key := PyList (l ++ [user_input])]> (fields self))
                       (current_index self)) w
    | Some _ => Out (Raise AttributeError) self w
    end.
Proof.
  unfold append_to, getitem. unfold_M.
  destruct (fields self !! key) as [[| |]|]; reflexivity.
Qed.

Lemma handle_uploaded_files_eq env field user_input self w :
  handle_uploaded_files env field user_input self w
  = match upload_slot field with
    | None =>
        process_next_field env
          (mkChatbot (fields self) (current_index self + 1)) w
    | Some key =>
        match fields self !! key with
        | None => Out (Raise (KeyError key)) self w
        | Some (PyList l) =>
            process_next_field env
              (mkChatbot (<[key := PyList (l ++ [user_input])]> (fields self))
                         (current_index self + 1)) w
        | Some _ => Out (Raise AttributeError) self w
        end
    end.
Proof.
  unfold handle_uploaded_files, upload_slot. unfold_M.
  destruct (String.eqb field "uploaded_ids");
    [|destruct (String.eqb field "uploaded_documents")];
    try reflexivity; rewrite append_to_eq;
    match goal with |- context [fields self !! ?k] =>
      destruct (fields self !! k) as [[| |]|]; reflexivity end.
Qed.

(** ** Plan fields and repeatable fields *)

Lemma plan_not_repeatable field :
  field ∈ conversation_order -> field ∉ repeatable.
Proof.
  intros Hin Hrep. unfold repeatable in Hrep.
  repeat (apply elem_of_cons in Hrep as [->|Hrep]);
    [..|by apply elem_of_nil in Hrep];
    apply (bool_decide_pack _) in Hin; by vm_compute in Hin.
Qed.

Lemma upload_slot_repeatable field key :
  upload_slot field = Some key -> key ∈ repeatable.
Proof.
  unfold upload_slot, repeatable.
  destruct (String.eqb field "uploaded_ids");
    [|destruct (String.eqb field "uploaded_documents")]; intros [= <-].
  - set_solver.
  - set_solver.
Qed.

Lemma first_name_plan : "first_name" ∈ conversation_order.
Proof. by apply (bool_decide_unpack _). Qed.

Lemma last_name_plan : "last_name" ∈ conversation_order.
Proof. by apply (bool_decide_unpack _). Qed.

(** ** What a turn does to the object *)

Lemma process_user_input_self env user_input self w :
  self_after (process_user_input env user_input self w)
  = match next_missing self with
    | Ok (Some next_field) =>
        if truthy (extracted env next_field user_input)
        then stored next_field (extracted env next_field user_input)
               user_input self
        else self
    | _ => self
    end.
Proof.
  rewrite process_user_input_eq.
  destruct (next_missing self) as [[next_field|]|e]; cbn zeta;
    [|reflexivity..].
  destruct (truthy _); [|reflexivity].
  destruct (is_name_field next_field) eqn:Hname; cbn [andb].
  - case_bool_decide as Hsplit; [|apply process_next_field_self].
    unfold stored. by rewrite Hname, Hsplit.
  - apply process_next_field_self.
Qed.

Lemma stored_index next_field extracted_value user_input self :
  current_index (stored next_field extracted_value user_input self)
  = current_index self + advance next_field user_input.
Proof.
  unfold stored, advance, named.
  destruct (is_name_field next_field); [|reflexivity].
  destruct (PyStr.split user_input) as [|first [|second rest]];
    cbn [current_index]; lia.
Qed.

Lemma stored_unchanged next_field extracted_value user_input self :
  advance next_field user_input = 0 ->
  stored next_field extracted_value user_input self = self.
Proof.
  unfold stored, advance.
  destruct (is_name_field next_field); [|discriminate].
  by destruct (PyStr.split user_input) as [|first [|second rest]].
Qed.

(** A turn writes plan fields only. *)
Lemma stored_other next_field extracted_value user_input self key :
  next_field ∈ conversation_order -> key ∉ conversation_order ->
  fields (stored next_field extracted_value user_input self) !! key
  = fields self !! key.
Proof.
  intros Hplan Hkey. unfold stored, named.
  assert (key <> "first_name") by (intros ->; apply Hkey, first_name_plan).
  assert (key <> "last_name") by (intros ->; apply Hkey, last_name_plan).
  assert (key <> next_field) by congruence.
  destruct (is_name_field next_field).
  - destruct (PyStr.split user_input) as [|first [|second rest]];
      cbn [fields]; by rewrite ?lookup_insert_ne.
  - cbn [fields]. by rewrite lookup_insert_ne.
Qed.

(** A turn never removes a key. *)
Lemma stored_is_Some next_field extracted_value user_input self key :
  is_Some (fields self !! key) ->
  is_Some (fields (stored next_field extracted_value user_input self) !! key).
Proof.
  intros Hkey. unfold stored, named.
  destruct (is_name_field next_field).
  - destruct (PyStr.split user_input) as [|first [|second rest]];
      cbn [fields]; rewrite ?lookup_insert_is_Some'; auto.
  - cbn [fields]. rewrite lookup_insert_is_Some'; auto.
Qed.

Lemma next_missing_plan self field :
  next_missing self = Ok (Some field) ->
  field ∈ conversation_order /\ fields self !! field = Some PyNone.
Proof.
  intros [Hin Hnone]%scan_Some. split; [|done].
  by eapply elem_of_drop_plan.
Qed.

Lemma process_user_input_index env user_input self w :
  current_index (self_after (process_user_input env user_input self w))
  = current_index self
    + match next_missing self with
      | Ok (Some next_field) =>
          if truthy (extracted env next_field user_input)
          then advance next_field user_input else 0
      | _ => 0
      end.
Proof.
  rewrite process_user_input_self.
  destruct (next_missing self) as [[next_field|]|e]; [|lia..].
  destruct (truthy _); [apply stored_index|lia].
Qed.

Lemma handle_commitments_self env user_input self w :
  self_after (handle_commitments env user_input self w)
  = match fields self !! "commitments" with
    | Some PyNone =>
        mkChatbot (<["commitments" := PyList [user_input]]> (fields self))
                  (current_index self + 1)
    | Some (PyList l) =>
        mkChatbot (<["commitments" := PyList (l ++ [user_input])]> (fields self))
                  (current_index self + 1)
    | _ => self
    end.
Proof.
  rewrite handle_commitments_eq.
  destruct (fields self !! "commitments") as [[| |]|];
    try reflexivity; apply process_next_field_self.
Qed.

Lemma handle_uploaded_files_self env field user_input self w :
  self_after (handle_uploaded_files env field user_input self w)
  = match upload_slot field with
    | None => mkChatbot (fields self) (current_index self + 1)
    | Some key =>
        match fields self !! key with
        | Some (PyList l) =>
            mkChatbot (<[key := PyList (l ++ [user_input])]> (fields self))
                      (current_index self + 1)
        | _ => self
        end
    end.
Proof.
  rewrite handle_uploaded_files_eq.
  destruct (upload_slot field) as [key|]; [|apply process_next_field_self].
  destruct (fields self !! key) as [[| |]|];
    try reflexivity; apply process_next_field_self.
Qed.

Lemma process_user_input_progress env user_input self w :
  progress self (self_after (process_user_input env user_input self w)).
Proof.
  rewrite process_user_input_self.
  destruct (next_missing self) as [[next_field|]|e]; [|by left..].
  destruct (truthy _); [|by left].
  destruct (advance next_field user_input) eqn:E.
  - left. by apply stored_unchanged.
  - right. rewrite stored_index. lia.
Qed.




(** ** An invariant of sessions *)

Lemma init_well_formed : well_formed init.
Proof.
  split.
  - apply Forall_forall. apply (bool_decide_unpack _). by vm_compute.
  - intros key Hkey. unfold repeatable in Hkey.
    repeat (apply elem_of_cons in Hkey as [->|Hkey]);
      [..|by apply elem_of_nil in Hkey]; by exists [].
  - done.
Qed.

Lemma progress_fresh self self' :
  progress self self' ->
  (current_index self = 0 -> self = init) ->
  current_index self' = 0 -> self' = init.
Proof. intros [->|Hlt] Hfresh H0; [auto|lia]. Qed.

Lemma process_user_input_well_formed env user_input self w :
  well_formed self ->
  well_formed (self_after (process_user_input env user_input self w)).
Proof.
  intros Hwf.
  pose proof (process_user_input_progress env user_input self w) as Hprog.
  split; [| |by eapply progress_fresh, Hwf]; clear Hprog;
    rewrite process_user_input_self;
    destruct (next_missing self) as [[next_field|]|e] eqn:Hnext;
    try apply Hwf; destruct (truthy _); try apply Hwf.
  - intros field Hfield. by apply stored_is_Some, Hwf.
  - intros key Hkey. apply next_missing_plan in Hnext as [Hplan _].
    rewrite stored_other; [by apply Hwf|done|].
    intros Hin. by apply plan_not_repeatable in Hin.
Qed.

Lemma insert_list_well_formed self key l n :
  well_formed self -> key ∈ repeatable ->
  well_formed (mkChatbot (<[key := PyList l]> (fields self))
                         (current_index self + S n)).
Proof.
  intros Hwf Hkey. split; cbn [fields current_index].
  - intros field Hfield. rewrite lookup_insert_is_Some'. right. by apply Hwf.
  - intros key' Hkey'. destruct (decide (key = key')) as [<-|Hne].
    + exists l. apply lookup_insert_eq.
    + rewrite lookup_insert_ne by done. by apply Hwf.
  - lia.
Qed.

Lemma handle_commitments_well_formed env user_input self w :
  well_formed self ->
  well_formed (self_after (handle_commitments env user_input self w)).
Proof.
  intros Hwf. rewrite handle_commitments_self.
  destruct (fields self !! "commitments") as [[| |]|]; try done;
    apply insert_list_well_formed; try done; unfold repeatable; set_solver.
Qed.

Lemma handle_uploaded_files_well_formed env field user_input self w :
  well_formed self ->
  well_formed (self_after (handle_uploaded_files env field user_input self w)).
Proof.
  intros Hwf. rewrite handle_uploaded_files_self.
  destruct (upload_slot field) as [key|] eqn:Hslot.
  - destruct (fields self !! key) as [[| |]|]; try done.
    apply insert_list_well_formed; [done|]. by eapply upload_slot_repeatable.
  - split; cbn [fields current_index]; [apply Hwf..|lia].
Qed.

Lemma reachable_well_formed self : reachable self -> well_formed self.
Proof.
  induction 1;
    auto using init_well_formed, process_user_input_well_formed,
      handle_commitments_well_formed, handle_uploaded_files_well_formed.
Qed.

(** In a session the scan never raises [KeyError]. *)
Lemma scan_keys fs order :
  (forall field, field ∈ order -> is_Some (fs !! field)) ->
  exists r, scan fs order = Ok r.
Proof.
  induction order as [|f rest IH]; cbn; [eauto|]. intros H.
  destruct (H f) as [v Hv]; [left|]. rewrite Hv.
  destruct v; eauto; apply IH; intros; apply H; by right.
Qed.

Lemma well_formed_next_missing self :
  well_formed self -> exists r, next_missing self = Ok r.
Proof.
  intros Hwf. apply scan_keys. intros field Hin.
  by eapply Hwf, elem_of_drop_plan.
Qed.

(** The two name fields are the first two of the plan, and nothing else
    is called like them. *)
Lemma next_first_name self :
  next_missing self = Ok (Some "first_name") -> current_index self = 0.
Proof.
  unfold next_missing. intros [Hin _]%scan_Some.
  destruct (current_index self) as [|n]; [done|].
  exfalso. cbn [conversation_order drop] in Hin.
  assert (Hsub : "first_name" ∈ tail conversation_order).
  { apply list_elem_of_In. apply list_elem_of_In in Hin.
    cbn [conversation_order tail].
    rewrite <- (take_drop n). apply in_or_app. by right. }
  apply (bool_decide_pack _) in Hsub. by vm_compute in Hsub.
Qed.

Lemma next_last_name self :
  next_missing self = Ok (Some "last_name") -> current_index self <= 1.
Proof.
  unfold next_missing. intros [Hin _]%scan_Some.
  destruct (current_index self) as [|[|n]]; [lia..|].
  exfalso. cbn [conversation_order drop] in Hin.
  assert (Hsub : "last_name" ∈ tail (tail conversation_order)).
  { apply list_elem_of_In. apply list_elem_of_In in Hin.
    cbn [conversation_order tail].
    rewrite <- (take_drop n). apply in_or_app. by right. }
  apply (bool_decide_pack _) in Hsub. by vm_compute in Hsub.
Qed.

(** ** The claims *)

(** C8. [get_next_missing_field] has no side effects: it leaves the object
    and the outside world as they were, and a second call right after the
    first returns the same field, or [None] both times (or raises the same
    [KeyError]). *)
Theorem get_next_missing_field_no_side_effects (self : Chatbot) (w : World) :
  self_after (get_next_missing_field self w) = self /\
  world_after (get_next_missing_field self w) = w /\
  get_next_missing_field
    (self_after (get_next_missing_field self w))
    (world_after (get_next_missing_field self w))
  = get_next_missing_field self w.
Proof. by rewrite !get_next_missing_field_eq. Qed.

(** C4. When [extract_details] returns [None] for the field that
    [get_next_missing_field] names, [process_user_input] returns the question
    of that field, which is the prompt [process_next_field] gave at the end
    of the call before, and neither the dict nor the pointer changes. *)
Theorem reprompt_when_absent env user_input self w target :
  returned (get_next_missing_field self w) = Ok (Some target) ->
  returned (extract_details env target user_input self w) = Ok None ->
  returned (process_user_input env user_input self w)
  = Ok (generate_question target) /\
  self_after (process_user_input env user_input self w) = self /\
  forall env' w',
    returned (process_next_field env' self w') = Ok (generate_question target).
Proof.
  rewrite get_next_missing_field_eq, extract_details_eq. cbn [returned].
  intros Hnext [= Hnone]. split; [|split].
  - rewrite process_user_input_eq, Hnext. cbn zeta. by rewrite Hnone.
  - rewrite process_user_input_self, Hnext. by rewrite Hnone.
  - intros env' w'. by rewrite process_next_field_eq, Hnext.
Qed.

Lemma reprompt_when_absent_witness :
  returned (process_user_input (replies " None ") "well..." after_jane blank)
  = Ok "What is your last name?" /\
  self_after (process_user_input (replies " None ") "well..." after_jane blank)
  = after_jane /\
  forall env' w',
    returned (process_next_field env' after_jane w')
    = Ok "What is your last name?".
Proof.
  apply (reprompt_when_absent (replies " None ") "well..." after_jane blank
           "last_name"); vm_compute; reflexivity.
Defined.

(** C9. When the call to the extraction service raises, [extract_details]
    returns [None], and [process_user_input] returns the question of the
    target field: no exception leaves the method, the object is unchanged
    and nothing is saved. *)
Theorem extraction_failure_reprompts env user_input self w target message :
  returned (get_next_missing_field self w) = Ok (Some target) ->
  openai_create env (extract_prompt target) user_input = ApiException message ->
  returned (extract_details env target user_input self w) = Ok None /\
  returned (process_user_input env user_input self w)
  = Ok (generate_question target) /\
  self_after (process_user_input env user_input self w) = self /\
  responses_csv (world_after (process_user_input env user_input self w))
  = responses_csv w.
Proof.
  rewrite get_next_missing_field_eq, extract_details_eq. cbn [returned].
  intros Hnext Hraise.
  assert (Hnone : extracted env target user_input = None)
    by (unfold extracted; by rewrite Hraise).
  rewrite process_user_input_eq, Hnext. cbn zeta. rewrite Hnone.
  by cbn.
Qed.

Lemma extraction_failure_reprompts_witness :
  returned (extract_details unavailable "first_name" "Jane Doe" init blank)
  = Ok None /\
  returned (process_user_input unavailable "Jane Doe" init blank)
  = Ok "Could you please tell me your first name?" /\
  self_after (process_user_input unavailable "Jane Doe" init blank) = init /\
  responses_csv (world_after (process_user_input unavailable "Jane Doe" init blank))
  = None.
Proof.
  apply (extraction_failure_reprompts unavailable "Jane Doe" init blank
           "first_name" "Connection refused"); vm_compute; reflexivity.
Defined.

Lemma truthy_Some v : v <> "" -> truthy (Some v) = true.
Proof. by destruct v. Qed.

(** What [process_user_input] leaves behind when the target's value was
    extracted. *)
Lemma process_user_input_stored env user_input self w target v :
  returned (get_next_missing_field self w) = Ok (Some target) ->
  returned (extract_details env target user_input self w) = Ok (Some v) ->
  v <> "" ->
  self_after (process_user_input env user_input self w)
  = stored target (Some v) user_input self.
Proof.
  rewrite get_next_missing_field_eq, extract_details_eq. cbn [returned].
  intros Hnext [= Hv] Hne.
  rewrite process_user_input_self, Hnext, Hv. by rewrite truthy_Some.
Qed.

(** C5. On the raw text "Jane Doe", with [first_name] the next missing
    field and a value extracted, one call of [process_user_input] stores
    "Jane" in [first_name] and "Doe" in [last_name], changes no other slot,
    and moves the pointer by two. *)
Theorem jane_doe_fills_both_names env self w v :
  returned (get_next_missing_field self w) = Ok (Some "first_name") ->
  returned (extract_details env "first_name" "Jane Doe" self w)
  = Ok (Some v) ->
  v <> "" ->
  fields (self_after (process_user_input env "Jane Doe" self w))
  = <["last_name" := PyStr "Doe"]>
      (<["first_name" := PyStr "Jane"]> (fields self)) /\
  current_index (self_after (process_user_input env "Jane Doe" self w))
  = current_index self + 2.
Proof.
  intros Hnext Hv Hne.
  rewrite (process_user_input_stored _ _ _ _ _ _ Hnext Hv Hne).
  split; [reflexivity|]. by rewrite stored_index.
Qed.

Lemma jane_doe_fills_both_names_witness :
  fields (self_after (process_user_input (replies "Jane") "Jane Doe" init blank))
  = <["last_name" := PyStr "Doe"]>
      (<["first_name" := PyStr "Jane"]> init_fields) /\
  current_index (self_after
    (process_user_input (replies "Jane") "Jane Doe" init blank)) = 0 + 2.
Proof.
  apply (jane_doe_fills_both_names (replies "Jane") init blank "Jane");
    [vm_compute; reflexivity | vm_compute; reflexivity | discriminate].
Defined.

(** C6. On the single-token raw text "Jane", with [first_name] the next
    missing field of a session and a value extracted, [process_user_input]
    stores "Jane" in [first_name] and changes no other slot; [last_name] is
    still [None], and the next call of [get_next_missing_field] returns
    [last_name]. *)
Theorem jane_fills_first_name_only env self w v :
  reachable self ->
  returned (get_next_missing_field self w) = Ok (Some "first_name") ->
  returned (extract_details env "first_name" "Jane" self w) = Ok (Some v) ->
  v <> "" ->
  fields (self_after (process_user_input env "Jane" self w))
  = <["first_name" := PyStr "Jane"]> (fields self) /\
  fields (self_after (process_user_input env "Jane" self w)) !! "last_name"
  = Some PyNone /\
  forall w',
    returned (get_next_missing_field
                (self_after (process_user_input env "Jane" self w)) w')
    = Ok (Some "last_name").
Proof.
  intros Hreach Hnext Hv Hne.
  rewrite (process_user_input_stored _ _ _ _ _ _ Hnext Hv Hne).
  rewrite get_next_missing_field_eq in Hnext. cbn [returned] in Hnext.
  apply next_first_name in Hnext.
  apply reachable_well_formed in Hreach.
  rewrite (wf_fresh _ Hreach Hnext).
  split; [reflexivity|]. split; [by vm_compute|].
  intros w'. rewrite get_next_missing_field_eq. by vm_compute.
Qed.

Lemma jane_fills_first_name_only_witness :
  fields (self_after (process_user_input (replies "Jane") "Jane" init blank))
  = <["first_name" := PyStr "Jane"]> init_fields /\
  fields (self_after (process_user_input (replies "Jane") "Jane" init blank))
    !! "last_name" = Some PyNone /\
  forall w',
    returned (get_next_missing_field
      (self_after (process_user_input (replies "Jane") "Jane" init blank)) w')
    = Ok (Some "last_name").
Proof.
  apply (jane_fills_first_name_only (replies "Jane") init blank "Jane");
    [apply reach_init | vm_compute; reflexivity | vm_compute; reflexivity
    | discriminate].
Defined.

(** C10. In a session where [first_name] is filled and [last_name] is the
    next missing field, a call of [process_user_input] for which a value is
    extracted writes the first token of the raw text over [first_name]; and
    when the raw text is that one token, [last_name] stays [None] while the
    pointer moves from the position of [last_name] to the one after it. *)
Theorem last_name_turn_overwrites_first_name
  env user_input self w v first rest :
  reachable self ->
  filled self "first_name" ->
  returned (get_next_missing_field self w) = Ok (Some "last_name") ->
  returned (extract_details env "last_name" user_input self w)
  = Ok (Some v) ->
  v <> "" ->
  PyStr.split user_input = first :: rest ->
  fields (self_after (process_user_input env user_input self w)) !! "first_name"
  = Some (PyStr first) /\
  (rest = [] ->
   fields (self_after (process_user_input env user_input self w)) !! "last_name"
   = Some PyNone /\
   conversation_order !! current_index self = Some "last_name" /\
   current_index (self_after (process_user_input env user_input self w))
   = current_index self + 1).
Proof.
  intros Hreach (v1 & Hfirst & Hfilled) Hnext Hv Hne Hsplit.
  rewrite (process_user_input_stored _ _ _ _ _ _ Hnext Hv Hne).
  rewrite get_next_missing_field_eq in Hnext. cbn [returned] in Hnext.
  pose proof (next_last_name _ Hnext) as Hle.
  destruct (next_missing_plan _ _ Hnext) as [_ Hlast].
  assert (Hidx : current_index self = 1).
  { destruct (current_index self) as [|[|n]] eqn:E; [|done|lia].
    apply reachable_well_formed in Hreach.
    rewrite (wf_fresh _ Hreach E) in Hfirst.
    vm_compute in Hfirst. congruence. }
  unfold stored, named. cbn [is_name_field String.eqb Ascii.eqb Bool.eqb orb].
  rewrite Hsplit. split.
  - destruct rest; cbn [fields].
    + apply lookup_insert_eq.
    + rewrite lookup_insert_ne by done. apply lookup_insert_eq.
  - intros ->. cbn [fields current_index].
    rewrite lookup_insert_ne by done. rewrite Hidx. by split.
Qed.

Lemma last_name_turn_overwrites_first_name_witness :
  fields (self_after (process_user_input (replies "Doe") "Doe" after_jane blank))
    !! "first_name" = Some (PyStr "Doe") /\
  (@nil string = [] ->
   fields (self_after (process_user_input (replies "Doe") "Doe" after_jane blank))
     !! "last_name" = Some PyNone /\
   conversation_order !! current_index after_jane = Some "last_name" /\
   current_index
     (self_after (process_user_input (replies "Doe") "Doe" after_jane blank))
   = current_index after_jane + 1).
Proof.
  apply (last_name_turn_overwrites_first_name (replies "Doe") "Doe" after_jane
           blank "Doe" "Doe" []).
  - apply reach_process_user_input, reach_init.
  - exists (PyStr "Jane"). split; [vm_compute; reflexivity | discriminate].
  - vm_compute; reflexivity.
  - vm_compute; reflexivity.
  - discriminate.
  - vm_compute; reflexivity.
Defined.

Lemma complete_next_missing self : complete self -> next_missing self = Ok None.
Proof.
  intros Hcomplete. apply scan_None. intros field Hin.
  by eapply Hcomplete, elem_of_drop_plan.
Qed.

(** What [get_next_missing_field] returning [None] does guarantee: the
    plan fields from the pointer on are filled. *)
Lemma next_missing_None self :
  next_missing self = Ok None <->
  forall field,
    field ∈ drop (current_index self) conversation_order -> filled self field.
Proof. apply scan_None. Qed.

(** C7. Once every plan field is filled, each further call of
    [process_user_input] returns the completion message, leaves the object
    as it is and calls to_csv once more: after [n] such calls the sink has
    been called [n] more times. *)
Theorem completed_session_saves_on_every_call turns self w :
  complete self ->
  (converse turns self w).1.1 = replicate (length turns) (Ok completed) /\
  (converse turns self w).1.2 = self /\
  to_csv_calls (converse turns self w).2 = to_csv_calls w + length turns.
Proof.
  intros Hcomplete. apply complete_next_missing in Hcomplete.
  revert w. induction turns as [|[env user_input] turns IH]; intros w.
  - cbn. repeat split. lia.
  - cbn [converse].
    assert (Hcall : process_user_input env user_input self w
                    = Out (Ok completed) self
                          (world_after (save_to_csv env self w)))
      by (by rewrite process_user_input_eq, Hcomplete).
    rewrite Hcall. cbn [returned self_after world_after].
    specialize (IH (world_after (save_to_csv env self w))).
    destruct (converse turns self _) as [[rs self'] w'].
    cbn [fst snd] in *. destruct IH as (-> & -> & ->).
    repeat split. rewrite save_to_csv_calls. cbn [length]. lia.
Qed.

Lemma answered_complete : complete answered.
Proof.
  assert (H : next_missing answered = Ok None) by (by vm_compute).
  exact (proj1 (next_missing_None answered) H).
Qed.

Lemma completed_session_saves_on_every_call_witness :
  (converse [(replies "x", "hello"); (unavailable, "again")] answered blank).1.1
  = [Ok completed; Ok completed] /\
  (converse [(replies "x", "hello"); (unavailable, "again")] answered blank).1.2
  = answered /\
  to_csv_calls
    (converse [(replies "x", "hello"); (unavailable, "again")] answered blank).2
  = 0 + 2.
Proof.
  apply (completed_session_saves_on_every_call
           [(replies "x", "hello"); (unavailable, "again")] answered blank).
  exact answered_complete.
Defined.

(** C2, as stated, fails: in a fresh session the next missing field is
    [first_name]; after [handle_commitments] it is [last_name], and
    [first_name] has been passed over while still [None]. *)
Lemma handle_commitments_passes_first_name :
  returned (get_next_missing_field init blank) = Ok (Some "first_name") /\
  returned (get_next_missing_field (self_after after_commitment)
              (world_after after_commitment)) = Ok (Some "last_name") /\
  fields (self_after after_commitment) !! "first_name" = Some PyNone /\
  returned (get_next_missing_field (self_after after_commitment)
              (world_after after_commitment))
  <> returned (get_next_missing_field init blank).
Proof. by vm_compute. Qed.

Lemma steps_over_insert self w key l (o : Outcome string) :
  key ∈ repeatable ->
  self_after o
  = mkChatbot (<[key := PyList l]> (fields self)) (current_index self + 1) ->
  steps_over self w o.
Proof.
  intros Hkey Hself.
  assert (Hplan : forall field, field ∈ conversation_order ->
            fields (self_after o) !! field = fields self !! field).
  { intros field Hfield. rewrite Hself. cbn [fields].
    apply lookup_insert_ne. intros ->. by apply plan_not_repeatable in Hfield. }
  split; [done|]. split; [by rewrite Hself|].
  rewrite get_next_missing_field_eq, first_missing_eq. cbn [returned].
  unfold next_missing. rewrite Hself at 2. cbn [current_index].
  apply scan_ext. intros field Hfield. eapply Hplan, elem_of_drop_plan, Hfield.
Qed.

(** C2, amended. In a session, [handle_commitments] and
    [handle_uploaded_files] change no plan field and move the pointer by
    exactly one: the next missing field after the call is the first plan
    field that is [None] at a position after the old pointer. *)
Theorem append_repeatable_steps_over env field user_input self w :
  reachable self ->
  steps_over self w (handle_commitments env user_input self w) /\
  steps_over self w (handle_uploaded_files env field user_input self w).
Proof.
  intros Hwf%reachable_well_formed. split.
  - destruct (wf_lists _ Hwf "commitments") as [l Hl];
      [unfold repeatable; set_solver|].
    eapply (steps_over_insert _ _ "commitments");
      [unfold repeatable; set_solver|].
    rewrite handle_commitments_self, Hl. reflexivity.
  - destruct (upload_slot field) as [key|] eqn:Hslot.
    + pose proof (upload_slot_repeatable _ _ Hslot) as Hkey.
      destruct (wf_lists _ Hwf key Hkey) as [l Hl].
      eapply (steps_over_insert _ _ key); [done|].
      rewrite handle_uploaded_files_self, Hslot, Hl. reflexivity.
    + assert (Hself : self_after (handle_uploaded_files env field user_input self w)
                      = mkChatbot (fields self) (current_index self + 1))
        by (by rewrite handle_uploaded_files_self, Hslot).
      split; [by rewrite Hself|]. split; [by rewrite Hself|].
      rewrite get_next_missing_field_eq, first_missing_eq. cbn [returned].
      unfold next_missing. by rewrite Hself.
Qed.

Lemma append_repeatable_steps_over_witness :
  steps_over after_jane blank
    (handle_commitments (replies "") "rent" after_jane blank) /\
  steps_over after_jane blank
    (handle_uploaded_files (replies "") "uploaded_ids" "rent"
       after_jane blank).
Proof.
  apply (append_repeatable_steps_over (replies "") "uploaded_ids" "rent"
           after_jane blank).
  apply reach_process_user_input, reach_init.
Defined.

Lemma converse_reachable turns self w :
  reachable self -> reachable (converse turns self w).1.2.
Proof.
  revert self w. induction turns as [|[env user_input] turns IH];
    intros self w Hreach; [done|].
  cbn [converse].
  specialize (IH (self_after (process_user_input env user_input self w))
                 (world_after (process_user_input env user_input self w))
                 (reach_process_user_input env user_input w self Hreach)).
  by destruct (converse turns _ _) as [[rs self'] w'].
Qed.

(** C1 fails on a session that only ever calls [process_user_input]: the
    user answers "Jane", then "Doe", then the nineteen other questions. The
    second answer is written over [first_name], [last_name] stays [None]
    and is passed over; the last turn returns the completion message and
    saves a row in which [last_name] is [None]. *)
Theorem completion_with_absent_last_name :
  last (converse two_turn_names init blank).1.1 = Some (Ok completed) /\
  reachable (converse two_turn_names init blank).1.2 /\
  returned (get_next_missing_field (converse two_turn_names init blank).1.2
              (converse two_turn_names init blank).2) = Ok None /\
  "last_name" ∈ conversation_order /\
  fields (converse two_turn_names init blank).1.2 !! "last_name" = Some PyNone /\
  fields (converse two_turn_names init blank).1.2 !! "first_name"
  = Some (PyStr "Doe") /\
  ~ complete (converse two_turn_names init blank).1.2 /\
  responses_csv (converse two_turn_names init blank).2
  = Some [CsvHeader (dom (fields (converse two_turn_names init blank).1.2));
          CsvRow (fields (converse two_turn_names init blank).1.2)].
Proof.
  assert (Hlast : fields (converse two_turn_names init blank).1.2 !! "last_name"
                  = Some PyNone) by (vm_compute; reflexivity).
  split; [vm_compute; reflexivity|].
  split; [apply converse_reachable, reach_init|].
  split; [vm_compute; reflexivity|].
  split; [apply last_name_plan|].
  split; [exact Hlast|].
  split; [vm_compute; reflexivity|].
  split; [|vm_compute; reflexivity].
  intros Hcomplete.
  destruct (Hcomplete "last_name" last_name_plan) as (v & Hv & Hne).
  congruence.
Qed.

(** * Further properties *)

Open Scope list_scope.

(** ** Splitting, stripping, joining *)

Lemma append_cons c s t : String c s +:+ t = String c (s +:+ t).
Proof. reflexivity. Qed.

Lemma append_empty_r s : s +:+ "" = s.
Proof. induction s as [|c s IH]; [done|]. by rewrite append_cons, IH. Qed.

Lemma append_assoc s t u : (s +:+ t) +:+ u = s +:+ (t +:+ u).
Proof. induction s as [|c s IH]; [done|]. by rewrite !append_cons, IH. Qed.

Lemma reverse_onto_app s acc : PyStr.reverse_onto s acc = PyStr.reverse s +:+ acc.
Proof.
  unfold PyStr.reverse. revert acc.
  induction s as [|c s IH]; intros acc; [done|].
  cbn [PyStr.reverse_onto]. rewrite IH, (IH (String c "")), append_assoc.
  reflexivity.
Qed.

Lemma reverse_cons c s : PyStr.reverse (String c s) = PyStr.reverse s +:+ String c "".
Proof. unfold PyStr.reverse at 1. cbn [PyStr.reverse_onto]. apply reverse_onto_app. Qed.

Lemma reverse_onto_twice s acc acc' :
  PyStr.reverse_onto (PyStr.reverse_onto s acc) acc'
  = PyStr.reverse_onto acc (s +:+ acc').
Proof.
  revert acc acc'. induction s as [|c s IH]; intros acc acc'; [done|].
  cbn [PyStr.reverse_onto]. by rewrite IH.
Qed.

Lemma reverse_involutive s : PyStr.reverse (PyStr.reverse s) = s.
Proof.
  unfold PyStr.reverse. rewrite reverse_onto_twice. apply append_empty_r.
Qed.

Lemma reverse_app s t :
  PyStr.reverse (s +:+ t) = PyStr.reverse t +:+ PyStr.reverse s.
Proof.
  induction s as [|c s IH].
  - change ("" +:+ t) with t. change (PyStr.reverse "") with "".
    by rewrite append_empty_r.
  - by rewrite append_cons, !reverse_cons, IH, append_assoc.
Qed.

Lemma reverse_empty s : PyStr.reverse s = "" -> s = "".
Proof.
  intros H. rewrite <- (reverse_involutive s), H. reflexivity.
Qed.

Lemma no_space_app s t : no_space (s +:+ t) = no_space s && no_space t.
Proof.
  induction s as [|c s IH]; [done|].
  rewrite append_cons. cbn [no_space]. rewrite IH.
  by destruct (PyStr.isspace c).
Qed.

Lemma no_space_reverse s : no_space (PyStr.reverse s) = no_space s.
Proof.
  induction s as [|c s IH]; [done|].
  rewrite reverse_cons, no_space_app, IH. cbn [no_space].
  destruct (PyStr.isspace c), (no_space s); reflexivity.
Qed.

(** The tokens [split] has still to produce, given the word being read. *)
Lemma flush_token word :
  no_space word = true -> Forall token (PyStr.flush word).
Proof.
  intros Hword. destruct word as [|c word]; cbn [PyStr.flush]; [constructor|].
  repeat constructor.
  - intros H%reverse_empty. discriminate.
  - by rewrite no_space_reverse.
Qed.

Lemma split_from_tokens word s :
  no_space word = true -> Forall token (PyStr.split_from word s).
Proof.
  revert word. induction s as [|c s IH]; intros word Hword; cbn.
  - by apply flush_token.
  - destruct (PyStr.isspace c) eqn:Hc.
    + apply Forall_app. split; [by apply flush_token | by apply IH].
    + apply IH. cbn. by rewrite Hc.
Qed.

Lemma split_tokens s : Forall token (PyStr.split s).
Proof. by apply split_from_tokens. Qed.

Lemma split_from_nil word s :
  PyStr.split_from word s = [] <-> word = "" /\ all_space s = true.
Proof.
  revert word. induction s as [|c s IH]; intros word; cbn.
  - destruct word; cbn; split; try done. by intros [? _].
  - destruct (PyStr.isspace c) eqn:Hc; cbn.
    + split.
      * intros [Hflush Hrest]%app_eq_nil. apply IH in Hrest as [_ Hrest].
        by destruct word.
      * intros [-> Hs]. cbn. apply IH. done.
    + rewrite IH. split; [by intros [? _] | by intros [_ ?]].
Qed.

(** [split] gives no token exactly on the empty and the all-whitespace
    strings. *)
Lemma split_nil s : PyStr.split s = [] <-> all_space s = true.
Proof.
  unfold PyStr.split. rewrite split_from_nil. split; [by intros [_ ?] | done].
Qed.

Lemma split_from_word t word s :
  no_space t = true ->
  PyStr.split_from word (t +:+ s)
  = PyStr.split_from (PyStr.reverse_onto t word) s.
Proof.
  revert word. induction t as [|c t IH]; intros word Ht; [done|].
  cbn [no_space] in Ht. apply andb_true_iff in Ht as [Hc Ht].
  apply negb_true_iff in Hc.
  rewrite append_cons. cbn [PyStr.split_from PyStr.reverse_onto].
  rewrite Hc. by apply IH.
Qed.

Lemma flush_reverse t : t <> "" -> PyStr.flush (PyStr.reverse t) = [t].
Proof.
  intros Ht. unfold PyStr.flush.
  destruct (PyStr.reverse t) eqn:E.
  - by apply reverse_empty in E.
  - by rewrite <- E, reverse_involutive.
Qed.

Lemma split_token t : token t -> PyStr.split t = [t].
Proof.
  intros [Hne Hns]. unfold PyStr.split.
  rewrite <- (append_empty_r t) at 1. rewrite split_from_word by done.
  cbn [PyStr.split_from]. by apply flush_reverse.
Qed.

Lemma split_token_space t s :
  token t -> PyStr.split (t +:+ " " +:+ s) = t :: PyStr.split s.
Proof.
  intros [Hne Hns]. unfold PyStr.split. rewrite split_from_word by done.
  change (PyStr.reverse_onto t "") with (PyStr.reverse t).
  rewrite append_cons. change ("" +:+ s) with s.
  assert (Hspace : PyStr.isspace " " = true) by reflexivity.
  cbn [PyStr.split_from]. rewrite Hspace.
  by rewrite flush_reverse.
Qed.

(** Joining tokens with one space and splitting again gives the tokens
    back. *)
Lemma split_join tokens :
  Forall token tokens -> PyStr.split (PyStr.join " " tokens) = tokens.
Proof.
  induction 1 as [|t tokens Ht Htokens IH]; [reflexivity|].
  destruct tokens as [|t' tokens].
  - by apply split_token.
  - change (PyStr.join " " (t :: t' :: tokens))
      with (t +:+ " " +:+ PyStr.join " " (t' :: tokens)).
    rewrite split_token_space by done. by rewrite IH.
Qed.

Lemma lstrip_idempotent s : PyStr.lstrip (PyStr.lstrip s) = PyStr.lstrip s.
Proof.
  induction s as [|c s IH]; [done|]. cbn [PyStr.lstrip].
  destruct (PyStr.isspace c) eqn:Hc; [done|]. cbn [PyStr.lstrip]. by rewrite Hc.
Qed.

Lemma lstrip_head s :
  PyStr.lstrip s = ""
  \/ exists c t, PyStr.lstrip s = String c t /\ PyStr.isspace c = false.
Proof.
  induction s as [|c s IH]; [by left|]. cbn [PyStr.lstrip].
  destruct (PyStr.isspace c) eqn:Hc; [done|]. right. eauto.
Qed.

Lemma lstrip_app_word s c t :
  PyStr.isspace c = false ->
  PyStr.lstrip (s +:+ String c t) = PyStr.lstrip s +:+ String c t.
Proof.
  intros Hc. induction s as [|c' s IH].
  - change ("" +:+ String c t) with (String c t). cbn [PyStr.lstrip].
    by rewrite Hc.
  - rewrite append_cons. cbn [PyStr.lstrip].
    destruct (PyStr.isspace c'); [done|]. by rewrite append_cons.
Qed.

Lemma rstrip_idempotent s : PyStr.rstrip (PyStr.rstrip s) = PyStr.rstrip s.
Proof.
  unfold PyStr.rstrip. by rewrite reverse_involutive, lstrip_idempotent.
Qed.

Lemma rstrip_cons c s :
  PyStr.isspace c = false ->
  PyStr.rstrip (String c s) = String c (PyStr.rstrip s).
Proof.
  intros Hc. unfold PyStr.rstrip.
  rewrite reverse_cons, lstrip_app_word, reverse_app by done.
  reflexivity.
Qed.

(** [strip] leaves nothing to strip. *)
Lemma strip_idempotent s : PyStr.strip (PyStr.strip s) = PyStr.strip s.
Proof.
  unfold PyStr.strip.
  assert (Hl : PyStr.lstrip (PyStr.rstrip (PyStr.lstrip s))
               = PyStr.rstrip (PyStr.lstrip s)).
  { destruct (lstrip_head s) as [->|(c & t & -> & Hc)]; [done|].
    rewrite rstrip_cons by done. cbn [PyStr.lstrip]. by rewrite Hc. }
  by rewrite Hl, rstrip_idempotent.
Qed.

(** ** The scan, by positions *)

Lemma scan_first fs order field :
  scan fs order = Ok (Some field) ->
  exists k, order !! k = Some field /\ fs !! field = Some PyNone /\
    forall j other, j < k -> order !! j = Some other ->
      exists v, fs !! other = Some v /\ v <> PyNone.
Proof.
  induction order as [|f rest IH]; cbn [scan]; [discriminate|].
  destruct (fs !! f) as [v|] eqn:Hf; [|discriminate].
  assert (Hrest : v <> PyNone -> scan fs rest = Ok (Some field) ->
    exists k, (f :: rest) !! k = Some field /\ fs !! field = Some PyNone /\
      forall j other, j < k -> (f :: rest) !! j = Some other ->
        exists v, fs !! other = Some v /\ v <> PyNone).
  { intros Hv (k & Hk & Hnone & Hbefore)%IH. exists (S k).
    split; [done|]. split; [done|].
    intros [|j] other Hj Hother.
    - injection Hother as <-. eauto.
    - apply (Hbefore j); [lia|done]. }
  destruct v; [|by apply Hrest..].
  intros [= <-]. exists 0. split; [done|]. split; [done|]. intros; lia.
Qed.

(** X1. When [get_next_missing_field] returns a field, it is the first
    plan field at or after the pointer that holds [None]: every plan field
    between the pointer and it is filled, and fields before the pointer are
    not looked at. *)
Theorem get_next_missing_field_first self w field :
  returned (get_next_missing_field self w) = Ok (Some field) ->
  exists i,
    current_index self <= i /\
    conversation_order !! i = Some field /\
    fields self !! field = Some PyNone /\
    forall j other,
      current_index self <= j < i -> conversation_order !! j = Some other ->
      filled self other.
Proof.
  rewrite get_next_missing_field_eq. cbn [returned]. unfold next_missing.
  intros (k & Hk & Hnone & Hbefore)%scan_first.
  rewrite lookup_drop in Hk. exists (current_index self + k).
  split; [lia|]. split; [done|]. split; [done|].
  intros j other [Hlo Hhi] Hother.
  apply (Hbefore (j - current_index self)); [lia|].
  rewrite lookup_drop. by replace (current_index self + (j - current_index self))
    with j by lia.
Qed.

Lemma get_next_missing_field_first_witness :
  exists i,
    current_index after_jane <= i /\
    conversation_order !! i = Some "last_name" /\
    fields after_jane !! "last_name" = Some PyNone /\
    forall j other,
      current_index after_jane <= j < i ->
      conversation_order !! j = Some other -> filled after_jane other.
Proof.
  apply (get_next_missing_field_first after_jane blank "last_name").
  vm_compute. reflexivity.
Defined.

(** X2. [get_next_missing_field] returns [None] exactly when every plan
    field at a position from the pointer on is filled; what the fields
    before the pointer hold plays no part. *)
Theorem get_next_missing_field_none self w :
  returned (get_next_missing_field self w) = Ok None <->
  forall i field,
    current_index self <= i -> conversation_order !! i = Some field ->
    filled self field.
Proof.
  rewrite get_next_missing_field_eq. cbn [returned].
  rewrite next_missing_None. split.
  - intros H i field Hi Hfield. apply H.
    apply list_elem_of_lookup. exists (i - current_index self).
    rewrite lookup_drop.
    by replace (current_index self + (i - current_index self)) with i by lia.
  - intros H field [k Hk]%list_elem_of_lookup. rewrite lookup_drop in Hk.
    apply (H (current_index self + k)); [lia|done].
Qed.

(** X3. Once the pointer is at or past the end of the plan, the slice is
    empty: [process_user_input] returns the completion message and saves,
    whatever the record holds, without asking the extraction service. *)
Theorem pointer_past_the_end_completes env user_input self w :
  length conversation_order <= current_index self ->
  returned (process_user_input env user_input self w) = Ok completed /\
  self_after (process_user_input env user_input self w) = self /\
  to_csv_calls (world_after (process_user_input env user_input self w))
  = to_csv_calls w + 1 /\
  world_after (process_user_input env user_input self w)
  = world_after (save_to_csv env self w).
Proof.
  intros Hend.
  assert (Hnone : next_missing self = Ok None)
    by (unfold next_missing; by rewrite drop_ge).
  rewrite process_user_input_eq, Hnone. cbn [returned self_after world_after].
  by rewrite save_to_csv_calls.
Qed.

Lemma pointer_past_the_end_completes_witness :
  returned (process_user_input unavailable "hello" (mkChatbot init_fields 21) blank)
  = Ok completed /\
  self_after (process_user_input unavailable "hello" (mkChatbot init_fields 21) blank)
  = mkChatbot init_fields 21 /\
  to_csv_calls
    (world_after
       (process_user_input unavailable "hello" (mkChatbot init_fields 21) blank))
  = to_csv_calls blank + 1 /\
  world_after (process_user_input unavailable "hello" (mkChatbot init_fields 21) blank)
  = world_after (save_to_csv unavailable (mkChatbot init_fields 21) blank).
Proof.
  apply (pointer_past_the_end_completes unavailable "hello"
           (mkChatbot init_fields 21) blank).
  vm_compute. reflexivity.
Defined.

(** ** Exceptions and replies *)

Lemma scan_raise fs order e :
  scan fs order = Raise e -> exists key, e = KeyError key /\ fs !! key = None.
Proof.
  induction order as [|f rest IH]; cbn [scan]; [discriminate|].
  destruct (fs !! f) as [[| |]|] eqn:Hf; try discriminate; auto.
  intros [= <-]. eauto.
Qed.

Lemma process_next_field_ok env self w :
  well_formed self -> exists r, returned (process_next_field env self w) = Ok r.
Proof.
  intros [r Hr]%well_formed_next_missing.
  rewrite process_next_field_eq, Hr. destruct r; eauto.
Qed.

(** X4. In a session no method raises [KeyError] or [AttributeError]:
    [handle_commitments] and [handle_uploaded_files] always return, and
    the only exception [process_user_input] can raise is [IndexError]. *)
Theorem session_raises_only_index_error env field user_input self w :
  reachable self ->
  (forall e, returned (process_user_input env user_input self w) = Raise e ->
             e = IndexError) /\
  (exists r, returned (handle_commitments env user_input self w) = Ok r) /\
  (exists r, returned (handle_uploaded_files env field user_input self w) = Ok r).
Proof.
  intros Hwf%reachable_well_formed. split; [|split].
  - pose proof (process_user_input_well_formed env user_input self w Hwf) as Hwf'.
    rewrite process_user_input_self in Hwf'.
    rewrite process_user_input_eq.
    destruct (well_formed_next_missing _ Hwf) as [[target|] Hnext];
      rewrite Hnext in *; cbn zeta; [|discriminate].
    destruct (truthy _) eqn:Htruthy; [|discriminate].
    destruct (_ && _); [by intros e [= <-]|].
    destruct (process_next_field_ok env _
                (log (extract_effects env target user_input) w) Hwf') as [r ->].
    discriminate.
  - pose proof (handle_commitments_well_formed env user_input self w Hwf) as Hwf'.
    rewrite handle_commitments_self in Hwf'. rewrite handle_commitments_eq.
    destruct (wf_lists _ Hwf "commitments") as [l Hl];
      [unfold repeatable; set_solver|].
    rewrite Hl in *. by apply process_next_field_ok.
  - pose proof (handle_uploaded_files_well_formed env field user_input self w Hwf)
      as Hwf'.
    rewrite handle_uploaded_files_self in Hwf'. rewrite handle_uploaded_files_eq.
    destruct (upload_slot field) as [key|] eqn:Hslot;
      [|by apply process_next_field_ok].
    destruct (wf_lists _ Hwf key (upload_slot_repeatable _ _ Hslot)) as [l Hl].
    rewrite Hl in *. by apply process_next_field_ok.
Qed.

Lemma session_raises_only_index_error_witness :
  (forall e,
     returned (process_user_input (replies "Doe") "   " after_jane blank) = Raise e ->
     e = IndexError) /\
  (exists r, returned (handle_commitments (replies "Doe") "   " after_jane blank)
             = Ok r) /\
  (exists r,
     returned (handle_uploaded_files (replies "Doe") "selfie" "   " after_jane blank)
     = Ok r).
Proof.
  apply (session_raises_only_index_error (replies "Doe") "selfie" "   "
           after_jane blank).
  apply reach_process_user_input, reach_init.
Defined.

Lemma dict_get_In d key q : dict_get d key = Some q -> In q (map snd d).
Proof.
  induction d as [|[k v] d IH]; cbn; [discriminate|].
  destruct (String.eqb k key); [intros [= <-]; by left | auto].
Qed.

Lemma plan_has_question field :
  field ∈ conversation_order -> exists q, dict_get questions field = Some q.
Proof.
  intros Hfield.
  assert (H : Forall (fun field => is_Some (dict_get questions field))
                conversation_order)
    by (apply (bool_decide_unpack _); by vm_compute).
  rewrite Forall_forall in H. destruct (H _ Hfield) as [q Hq]. eauto.
Qed.

Lemma question_not_completed q : In q (map snd questions) -> q <> completed.
Proof.
  intros Hq%list_elem_of_In.
  assert (H : Forall (fun q => q <> completed) (map snd questions))
    by (apply (bool_decide_unpack _); by vm_compute).
  rewrite Forall_forall in H. by apply H.
Qed.

Lemma generate_question_not_completed field :
  generate_question field <> completed.
Proof.
  unfold generate_question. destruct (dict_get questions field) as [q|] eqn:Hq.
  - by eapply question_not_completed, dict_get_In.
  - intros H. apply (f_equal (String.get 0)) in H. by vm_compute in H.
Qed.

Lemma plan_question_reply field :
  field ∈ conversation_order -> plan_reply (generate_question field).
Proof.
  intros Hfield. right. exists field. split; [done|].
  unfold generate_question. by destruct (plan_has_question _ Hfield) as [q ->].
Qed.

Lemma process_next_field_reply env self w r :
  returned (process_next_field env self w) = Ok r -> plan_reply r.
Proof.
  rewrite process_next_field_eq.
  destruct (next_missing self) as [[field|]|e] eqn:Hnext; cbn [returned];
    intros [= <-]; [|by left].
  by eapply plan_question_reply, next_missing_plan.
Qed.

(** X5. Whatever the state, a reply of [process_user_input],
    [handle_commitments] or [handle_uploaded_files] is the completion
    message or the question of the table for a plan field: the generic
    question for unknown fields is never given. *)
Theorem replies_are_plan_questions env field user_input self w r :
  (returned (process_user_input env user_input self w) = Ok r -> plan_reply r) /\
  (returned (handle_commitments env user_input self w) = Ok r -> plan_reply r) /\
  (returned (handle_uploaded_files env field user_input self w) = Ok r ->
   plan_reply r).
Proof.
  split; [|split].
  - rewrite process_user_input_eq.
    destruct (next_missing self) as [[target|]|e] eqn:Hnext; cbn zeta;
      [|by intros [= <-]; left|discriminate].
    destruct (truthy _).
    + destruct (_ && _); [discriminate|]. apply process_next_field_reply.
    + intros [= <-]. by eapply plan_question_reply, next_missing_plan.
  - rewrite handle_commitments_eq.
    destruct (fields self !! "commitments") as [[| |]|];
      try discriminate; apply process_next_field_reply.
  - rewrite handle_uploaded_files_eq.
    destruct (upload_slot field) as [key|]; [|apply process_next_field_reply].
    destruct (fields self !! key) as [[| |]|];
      try discriminate; apply process_next_field_reply.
Qed.

Lemma to_csv_calls_log es w :
  Forall (fun e => is_to_csv e = false) es ->
  to_csv_calls (log es w) = to_csv_calls w.
Proof.
  intros Hes. unfold to_csv_calls, log. cbn [effects].
  rewrite filter_app, length_app.
  replace (filter (fun e => is_to_csv e = true) es) with (@nil effect); [cbn; lia|].
  symmetry. induction Hes as [|e es He Hes IH]; [done|].
  rewrite filter_cons_False by congruence. exact IH.
Qed.

Lemma to_csv_calls_extract env field user_input w :
  to_csv_calls (log (extract_effects env field user_input) w) = to_csv_calls w.
Proof.
  apply to_csv_calls_log. unfold extract_effects.
  destruct (openai_create env _ _); repeat constructor.
Qed.

Lemma process_next_field_saves env self w :
  saves_iff_completed w (process_next_field env self w).
Proof.
  rewrite process_next_field_eq.
  destruct (next_missing self) as [[field|]|e]; split;
    cbn [returned world_after]; intros H; try done.
  - injection H as H. by apply generate_question_not_completed in H.
  - apply save_to_csv_calls.
Qed.

Lemma saves_iff_completed_log es w o :
  to_csv_calls (log es w) = to_csv_calls w ->
  saves_iff_completed (log es w) o -> saves_iff_completed w o.
Proof. unfold saves_iff_completed. intros ->. done. Qed.

(** X6. The record is saved exactly when the completion message is
    returned: a call of [process_user_input], [handle_commitments] or
    [handle_uploaded_files] calls to_csv once if it returns the completion
    message, and not at all if it returns a question or raises. *)
Theorem saved_iff_completion_message env field user_input self w :
  saves_iff_completed w (process_user_input env user_input self w) /\
  saves_iff_completed w (handle_commitments env user_input self w) /\
  saves_iff_completed w (handle_uploaded_files env field user_input self w).
Proof.
  split; [|split].
  - rewrite process_user_input_eq.
    destruct (next_missing self) as [[target|]|e]; cbn zeta.
    + pose proof (to_csv_calls_extract env target user_input w) as Hlog.
      destruct (truthy _); [destruct (_ && _)|].
      * split; cbn [returned world_after]; [discriminate|done].
      * eapply saves_iff_completed_log; [exact Hlog|].
        apply process_next_field_saves.
      * split; cbn [returned world_after]; [|done].
        intros [= H]. by apply generate_question_not_completed in H.
    + split; cbn [returned world_after]; [|done]. intros _.
      apply save_to_csv_calls.
    + split; cbn [returned world_after]; [discriminate|done].
  - rewrite handle_commitments_eq.
    destruct (fields self !! "commitments") as [[| |]|];
      try apply process_next_field_saves; by split.
  - rewrite handle_uploaded_files_eq.
    destruct (upload_slot field) as [key|]; [|apply process_next_field_saves].
    destruct (fields self !! key) as [[| |]|];
      try apply process_next_field_saves; by split.
Qed.

Lemma replies_are_plan_questions_witness :
  plan_reply "What is your last name?".
Proof.
  apply (replies_are_plan_questions (replies "Jane") "" "Jane" init blank
           "What is your last name?").
  vm_compute. reflexivity.
Defined.

(** ** The file *)

Lemma csv_grows_refl file : csv_grows file file.
Proof.
  destruct file as [lines|]; cbn; [|by left].
  exists []. by rewrite app_nil_r.
Qed.

Lemma csv_grows_append row file :
  csv_grows file (Some (append_row row file)).
Proof.
  destruct file as [lines|]; cbn.
  - exists [CsvRow row]. split; [done|]. by repeat constructor.
  - right. exists (dom row), [CsvRow row]. split; [done|]. split; [done|].
    by repeat constructor.
Qed.

Lemma csv_grows_trans a b c : csv_grows a b -> csv_grows b c -> csv_grows a c.
Proof.
  destruct a as [lines|]; cbn.
  - intros (rows & -> & Hrows) (rows' & -> & Hrows'). exists (rows ++ rows').
    split; [by rewrite app_assoc | by apply Forall_app].
  - intros [->|(columns & rows & -> & Hne & Hrows)]; [done|].
    intros (rows' & -> & Hrows'). right. exists columns, (rows ++ rows').
    split; [done|]. split; [by destruct rows | by apply Forall_app].
Qed.

Lemma save_to_csv_grows env self w :
  csv_grows (responses_csv w) (responses_csv (world_after (save_to_csv env self w))).
Proof.
  unfold save_to_csv. destruct (to_csv_exception env); cbn [world_after responses_csv].
  - apply csv_grows_refl.
  - apply csv_grows_append.
Qed.

Lemma process_next_field_grows env self w :
  csv_grows (responses_csv w)
            (responses_csv (world_after (process_next_field env self w))).
Proof.
  rewrite process_next_field_eq.
  destruct (next_missing self) as [[field|]|e]; cbn [world_after];
    auto using csv_grows_refl, save_to_csv_grows.
Qed.

Lemma process_user_input_grows env user_input self w :
  csv_grows (responses_csv w)
            (responses_csv (world_after (process_user_input env user_input self w))).
Proof.
  rewrite process_user_input_eq.
  destruct (next_missing self) as [[target|]|e]; cbn zeta; cbn [world_after];
    auto using csv_grows_refl, save_to_csv_grows.
  destruct (truthy _); [destruct (_ && _)|]; cbn [world_after];
    try apply csv_grows_refl.
  apply (process_next_field_grows env _ (log _ w)).
Qed.

(** X7. [responses.csv] is only ever appended to. Over a conversation of
    any length, the lines that were in the file stay where they are and
    only data rows are added after them; and if there was no file, either
    there is still none or it starts with one header followed by data rows
    only. *)
Theorem responses_csv_append_only turns self w :
  csv_grows (responses_csv w) (responses_csv (converse turns self w).2).
Proof.
  revert self w. induction turns as [|[env user_input] turns IH]; intros self w.
  - apply csv_grows_refl.
  - cbn [converse].
    specialize (IH (self_after (process_user_input env user_input self w))
                   (world_after (process_user_input env user_input self w))).
    destruct (converse turns _ _) as [[rs self'] w']. cbn [snd] in *.
    eapply csv_grows_trans; [apply process_user_input_grows | exact IH].
Qed.

(** ** What is written, and where *)

Lemma truthy_of_extracted x : truthy x = true -> of_extracted x <> PyNone.
Proof. by destruct x. Qed.

Lemma stored_filled next_field extracted_value user_input self key :
  truthy extracted_value = true ->
  filled self key ->
  filled (stored next_field extracted_value user_input self) key.
Proof.
  intros Htruthy (v & Hv & Hne). unfold filled, stored, named.
  destruct (is_name_field next_field).
  - destruct (PyStr.split user_input) as [|first [|second rest]];
      cbn [fields]; eauto;
      repeat (rewrite lookup_insert; case_decide); eauto.
  - cbn [fields]. rewrite lookup_insert. case_decide; eauto.
    eexists; split; [done|]. by apply truthy_of_extracted.
Qed.

Lemma insert_list_filled (fs : gmap string value) key l key' :
  (exists v, fs !! key' = Some v /\ v <> PyNone) ->
  exists v, <[key := PyList l]> fs !! key' = Some v /\ v <> PyNone.
Proof.
  intros (v & Hv & Hne). rewrite lookup_insert. case_decide; eauto.
Qed.

(** X8. No entry point ever puts [None] back: in any state, a slot that
    holds a value before [process_user_input], [handle_commitments] or
    [handle_uploaded_files] still holds one after the call. *)
Theorem filled_stays_filled env field user_input self w key :
  filled self key ->
  filled (self_after (process_user_input env user_input self w)) key /\
  filled (self_after (handle_commitments env user_input self w)) key /\
  filled (self_after (handle_uploaded_files env field user_input self w)) key.
Proof.
  intros Hkey. split; [|split].
  - rewrite process_user_input_self.
    destruct (next_missing self) as [[target|]|e]; try done.
    destruct (truthy _) eqn:Htruthy; [|done]. by apply stored_filled.
  - rewrite handle_commitments_self.
    destruct (fields self !! "commitments") as [[| |]|]; try done;
      by apply insert_list_filled.
  - rewrite handle_uploaded_files_self.
    destruct (upload_slot field) as [slot|]; [|done].
    destruct (fields self !! slot) as [[| |]|]; try done.
    by apply insert_list_filled.
Qed.

Lemma filled_stays_filled_witness :
  filled (self_after (process_user_input (replies "Doe") "Doe" after_jane blank))
    "first_name" /\
  filled (self_after (handle_commitments (replies "Doe") "Doe" after_jane blank))
    "first_name" /\
  filled (self_after
            (handle_uploaded_files (replies "Doe") "uploaded_ids" "Doe"
               after_jane blank)) "first_name".
Proof.
  apply (filled_stays_filled (replies "Doe") "uploaded_ids" "Doe" after_jane
           blank "first_name").
  exists (PyStr "Jane"). split; [vm_compute; reflexivity | discriminate].
Defined.

Lemma is_name_field_spec field :
  is_name_field field = true -> field = "first_name" \/ field = "last_name".
Proof.
  unfold is_name_field. intros H. apply orb_true_iff in H.
  destruct H as [H|H]; apply String.eqb_eq in H; auto.
Qed.

(** X9. In a session, [process_user_input] writes a value once: a slot
    other than [first_name] that holds a value keeps that very value,
    whatever the user says later. *)
Theorem process_user_input_writes_once env user_input self w key v :
  reachable self ->
  key <> "first_name" ->
  fields self !! key = Some v ->
  v <> PyNone ->
  fields (self_after (process_user_input env user_input self w)) !! key = Some v.
Proof.
  intros Hwf%reachable_well_formed Hkey Hv Hne.
  rewrite process_user_input_self.
  destruct (next_missing self) as [[target|]|e] eqn:Hnext; try done.
  destruct (truthy _); [|done].
  destruct (next_missing_plan _ _ Hnext) as [_ Htarget].
  assert (key <> target) by congruence.
  unfold stored, named. destruct (is_name_field target) eqn:Hname.
  - assert (key <> "last_name").
    { intros ->. apply is_name_field_spec in Hname as [->| ->]; [|done].
      apply next_first_name in Hnext.
      rewrite (wf_fresh _ Hwf Hnext) in Hv. vm_compute in Hv. congruence. }
    destruct (PyStr.split user_input) as [|first [|second rest]];
      cbn [fields]; by rewrite ?lookup_insert_ne.
  - cbn [fields]. by rewrite lookup_insert_ne.
Qed.

Lemma process_user_input_writes_once_witness :
  fields (self_after
            (process_user_input (replies "Smith") "Mr Smith"
               (self_after (process_user_input (replies "Jane") "Jane Doe" init blank))
               blank)) !! "last_name" = Some (PyStr "Doe").
Proof.
  apply (process_user_input_writes_once (replies "Smith") "Mr Smith"
           (self_after (process_user_input (replies "Jane") "Jane Doe" init blank))
           blank "last_name" (PyStr "Doe")).
  - apply reach_process_user_input, reach_init.
  - discriminate.
  - vm_compute. reflexivity.
  - discriminate.
Defined.

(** X10. In a session, [handle_commitments] appends the raw text, as it
    is, at the end of the list in [commitments], and
    [handle_uploaded_files] does so for the slot it is given when that is
    [uploaded_ids] or [uploaded_documents]; nothing else in the dict
    changes. For any other field name [handle_uploaded_files] stores
    nothing. *)
Theorem append_repeatable_appends env field user_input self w :
  reachable self ->
  (exists l,
     fields self !! "commitments" = Some (PyList l) /\
     fields (self_after (handle_commitments env user_input self w))
     = <["commitments" := PyList (l ++ [user_input])]> (fields self)) /\
  (field = "uploaded_ids" \/ field = "uploaded_documents" ->
   exists l,
     fields self !! field = Some (PyList l) /\
     fields (self_after (handle_uploaded_files env field user_input self w))
     = <[field := PyList (l ++ [user_input])]> (fields self)) /\
  (field <> "uploaded_ids" -> field <> "uploaded_documents" ->
   fields (self_after (handle_uploaded_files env field user_input self w))
   = fields self).
Proof.
  intros Hwf%reachable_well_formed. split; [|split].
  - destruct (wf_lists _ Hwf "commitments") as [l Hl];
      [unfold repeatable; set_solver|].
    exists l. split; [done|]. by rewrite handle_commitments_self, Hl.
  - intros Hfield.
    assert (Hslot : upload_slot field = Some field)
      by (by destruct Hfield as [-> | ->]).
    destruct (wf_lists _ Hwf field (upload_slot_repeatable _ _ Hslot)) as [l Hl].
    exists l. split; [done|]. by rewrite handle_uploaded_files_self, Hslot, Hl.
  - intros Hids%String.eqb_neq Hdocs%String.eqb_neq.
    rewrite handle_uploaded_files_self. unfold upload_slot.
    by rewrite Hids, Hdocs.
Qed.

Lemma append_repeatable_appends_witness :
  (exists l,
     fields after_jane !! "commitments" = Some (PyList l) /\
     fields (self_after (handle_commitments unavailable "rent 900" after_jane blank))
     = <["commitments" := PyList (l ++ ["rent 900"])]> (fields after_jane)) /\
  ("uploaded_ids" = "uploaded_ids" \/ "uploaded_ids" = "uploaded_documents" ->
   exists l,
     fields after_jane !! "uploaded_ids" = Some (PyList l) /\
     fields (self_after
               (handle_uploaded_files unavailable "uploaded_ids" "rent 900"
                  after_jane blank))
     = <["uploaded_ids" := PyList (l ++ ["rent 900"])]> (fields after_jane)) /\
  ("uploaded_ids" <> "uploaded_ids" -> "uploaded_ids" <> "uploaded_documents" ->
   fields (self_after
             (handle_uploaded_files unavailable "uploaded_ids" "rent 900"
                after_jane blank))
   = fields after_jane).
Proof.
  apply (append_repeatable_appends unavailable "uploaded_ids" "rent 900"
           after_jane blank).
  apply reach_process_user_input, reach_init.
Defined.

Lemma insert_dom_keep (fs : gmap string value) key v :
  is_Some (fs !! key) -> dom (<[key := v]> fs) = dom fs.
Proof.
  intros Hkey. rewrite dom_insert_L.
  by apply subseteq_union_1_L, singleton_subseteq_l, elem_of_dom.
Qed.

Lemma stored_dom next_field extracted_value user_input self :
  well_formed self -> next_field ∈ conversation_order ->
  dom (fields (stored next_field extracted_value user_input self))
  = dom (fields self).
Proof.
  intros Hwf Hplan. unfold stored, named.
  pose proof (wf_keys _ Hwf _ first_name_plan) as Hfirst.
  pose proof (wf_keys _ Hwf _ last_name_plan) as Hlast.
  destruct (is_name_field next_field).
  - destruct (PyStr.split user_input) as [|first [|second rest]];
      cbn [fields]; [done|by apply insert_dom_keep|].
    rewrite insert_dom_keep; [by apply insert_dom_keep|].
    rewrite lookup_insert_is_Some'. by right.
  - cbn [fields]. apply insert_dom_keep. by apply Hwf.
Qed.

(** X11. The keys of [self.fields], which are the columns of a saved row,
    are the same in every state of a session: the entry points only assign
    to keys that [__init__] created. *)
Theorem session_keeps_keys self :
  reachable self -> dom (fields self) = dom init_fields.
Proof.
  induction 1 as [|env user_input w self Hreach IH|env user_input w self Hreach IH
                 |env field user_input w self Hreach IH];
    [done|..]; apply reachable_well_formed in Hreach as Hwf; rewrite <- IH.
  - rewrite process_user_input_self.
    destruct (next_missing self) as [[target|]|e] eqn:Hnext; try done.
    destruct (truthy _); [|done].
    apply stored_dom; [done|]. by eapply next_missing_plan.
  - rewrite handle_commitments_self.
    destruct (fields self !! "commitments") as [[| |]|] eqn:Hc; try done;
      cbn [fields]; by apply insert_dom_keep.
  - rewrite handle_uploaded_files_self.
    destruct (upload_slot field) as [slot|]; [|done].
    destruct (fields self !! slot) as [[| |]|] eqn:Hs; try done.
    cbn [fields]. by apply insert_dom_keep.
Qed.

Lemma session_keeps_keys_witness :
  dom (fields after_jane) = dom init_fields.
Proof.
  apply (session_keeps_keys after_jane).
  apply reach_process_user_input, reach_init.
Defined.

(** ** What is extracted and what is stored *)

(** X12. A value returned by [extract_details] has no whitespace left at
    either end ([strip] returns it unchanged) and is not the word "none" in
    any mix of upper and lower case. *)
Theorem extract_details_trimmed env field user_input self w v :
  returned (extract_details env field user_input self w) = Ok (Some v) ->
  PyStr.strip v = v /\ PyStr.lower v <> "none".
Proof.
  rewrite extract_details_eq. cbn [returned]. unfold extracted.
  destruct (openai_create env _ _) as [reply|e]; [|discriminate].
  destruct (String.eqb _ "none") eqn:Hnone; [discriminate|].
  intros [= <-]. split; [apply strip_idempotent|].
  by apply String.eqb_neq.
Qed.

Lemma extract_details_trimmed_witness :
  PyStr.strip "Jane Doe" = "Jane Doe" /\ PyStr.lower "Jane Doe" <> "none".
Proof.
  apply (extract_details_trimmed (replies "  Jane Doe ") "first_name"
           "I am Jane Doe" init blank "Jane Doe").
  vm_compute. reflexivity.
Defined.

Lemma truthy_Some_inv x : truthy x = true <-> exists v, x = Some v /\ v <> "".
Proof.
  split.
  - destruct x as [[|c v]|]; try discriminate. intros _. by eexists.
  - intros (v & -> & Hv). by apply truthy_Some.
Qed.

Lemma process_next_field_raise env self w e :
  returned (process_next_field env self w) = Raise e -> exists key, e = KeyError key.
Proof.
  rewrite process_next_field_eq.
  destruct (next_missing self) as [[field|]|e'] eqn:Hnext; try discriminate.
  intros [= <-]. apply scan_raise in Hnext as (key & -> & _). eauto.
Qed.

(** X13. [process_user_input] raises [IndexError] exactly when the next
    missing field is a name field, a value was extracted, and the raw text
    is empty or all whitespace ([names[0]] on an empty list). The object
    and the file are then as before the call. *)
Theorem index_error_on_blank_name env user_input self w :
  (returned (process_user_input env user_input self w) = Raise IndexError <->
   exists target v,
     returned (get_next_missing_field self w) = Ok (Some target) /\
     is_name_field target = true /\
     returned (extract_details env target user_input self w) = Ok (Some v) /\
     v <> "" /\
     all_space user_input = true) /\
  (returned (process_user_input env user_input self w) = Raise IndexError ->
   self_after (process_user_input env user_input self w) = self /\
   responses_csv (world_after (process_user_input env user_input self w))
   = responses_csv w).
Proof.
  rewrite get_next_missing_field_eq. cbn [returned].
  rewrite process_user_input_eq.
  destruct (next_missing self) as [[target|]|e] eqn:Hnext; cbn zeta.
  - setoid_rewrite extract_details_eq. cbn [returned].
    destruct (truthy (extracted env target user_input)) eqn:Htruthy.
    + destruct (is_name_field target) eqn:Hname; cbn [andb].
      * case_bool_decide as Hsplit.
        -- split; [|done]. split; [intros _|done].
           apply truthy_Some_inv in Htruthy as (v & Hv & Hne).
           exists target, v. rewrite Hv. by apply split_nil in Hsplit.
        -- split.
           ++ split.
              ** by intros (key & [=])%process_next_field_raise.
              ** intros (t & v & [= <-] & _ & _ & _ & Hblank%split_nil). done.
           ++ by intros (key & [=])%process_next_field_raise.
      * split.
        -- split.
           ++ by intros (key & [=])%process_next_field_raise.
           ++ intros (t & v & [= <-] & Hn & _). congruence.
        -- by intros (key & [=])%process_next_field_raise.
    + split; [|discriminate]. split; [discriminate|].
      intros (t & v & [= <-] & _ & [= Hv] & Hne & _).
      rewrite Hv, truthy_Some in Htruthy by done. discriminate.
  - split; [|discriminate]. split; [discriminate|].
    by intros (t & v & [=] & _).
  - split.
    + split; [|by intros (t & v & [=] & _)].
      intros [= ->]. apply scan_raise in Hnext as (key & [=] & _).
    + intros [= ->]. apply scan_raise in Hnext as (key & [=] & _).
Qed.

(** X14. A turn that stores names stores tokens: [first_name] becomes the
    first token of the raw text, a non-empty word without whitespace; and
    when there are more tokens, [last_name] becomes the others joined by
    single spaces, so that splitting [last_name] gives those tokens back
    and the two slots together hold every token of the raw text in order. *)
Theorem names_keep_every_token env user_input self w target v first rest :
  returned (get_next_missing_field self w) = Ok (Some target) ->
  is_name_field target = true ->
  returned (extract_details env target user_input self w) = Ok (Some v) ->
  v <> "" ->
  PyStr.split user_input = first :: rest ->
  fields (self_after (process_user_input env user_input self w)) !! "first_name"
  = Some (PyStr first) /\
  token first /\
  (rest <> [] ->
   fields (self_after (process_user_input env user_input self w)) !! "last_name"
   = Some (PyStr (PyStr.join " " rest)) /\
   PyStr.split (PyStr.join " " rest) = rest /\
   PyStr.split (first +:+ " " +:+ PyStr.join " " rest) = PyStr.split user_input).
Proof.
  intros Hnext Hname Hv Hne Hsplit.
  rewrite (process_user_input_stored _ _ _ _ _ _ Hnext Hv Hne).
  pose proof (split_tokens user_input) as Htokens. rewrite Hsplit in Htokens.
  apply Forall_cons in Htokens as [Hfirst Hrest].
  unfold stored, named. rewrite Hname, Hsplit.
  split; [|split; [done|]].
  - destruct rest; cbn [fields].
    + apply lookup_insert_eq.
    + rewrite lookup_insert_ne by done. apply lookup_insert_eq.
  - intros Hmore. destruct rest as [|second rest]; [done|]. cbn [fields].
    split; [apply lookup_insert_eq|].
    split; [by apply split_join|].
    rewrite split_token_space by done. by rewrite split_join.
Qed.

Lemma names_keep_every_token_witness :
  fields (self_after
            (process_user_input (replies "Jane") " Jane  van   Doe " init blank))
    !! "first_name" = Some (PyStr "Jane") /\
  token "Jane" /\
  (["van"; "Doe"] <> [] ->
   fields (self_after
             (process_user_input (replies "Jane") " Jane  van   Doe " init blank))
     !! "last_name" = Some (PyStr (PyStr.join " " ["van"; "Doe"])) /\
   PyStr.split (PyStr.join " " ["van"; "Doe"]) = ["van"; "Doe"] /\
   PyStr.split ("Jane" +:+ " " +:+ PyStr.join " " ["van"; "Doe"])
   = PyStr.split " Jane  van   Doe ").
Proof.
  apply (names_keep_every_token (replies "Jane") " Jane  van   Doe " init blank
           "first_name" "Jane" "Jane" ["van"; "Doe"]);
    [vm_compute; reflexivity | reflexivity | vm_compute; reflexivity
    | discriminate | vm_compute; reflexivity].
Defined.

(** ** Conversations *)

Lemma past_the_end_none self :
  length conversation_order <= current_index self -> next_missing self = Ok None.
Proof. intros Hend. unfold next_missing. by rewrite drop_ge. Qed.

Lemma cooperative_advance target user_input :
  PyStr.split user_input <> [] -> 1 <= advance target user_input.
Proof.
  intros Hsplit. unfold advance. destruct (is_name_field target); [|lia].
  destruct (PyStr.split user_input) as [|first [|second rest]]; [done|lia..].
Qed.

(** One cooperative turn: it ends the interview, or leaves one turn less
    to go. *)
Lemma cooperative_turn env user_input self w (turns : list (Env * string)) :
  well_formed self -> cooperative (env, user_input) ->
  next_missing self = Ok None
  \/ length conversation_order <= current_index self + S (length turns) ->
  (returned (process_user_input env user_input self w) = Ok completed /\
   next_missing (self_after (process_user_input env user_input self w)) = Ok None)
  \/ (length conversation_order
      <= current_index (self_after (process_user_input env user_input self w))
         + length turns /\
      (turns = [] ->
       returned (process_user_input env user_input self w) = Ok completed)).
Proof.
  intros Hwf [Hsplit Htruthy] Hbound. cbn [fst snd] in *.
  rewrite process_user_input_self, process_user_input_eq.
  destruct (well_formed_next_missing _ Hwf) as [[target|] Hnext];
    rewrite Hnext; cbn zeta; [|by left].
  destruct Hbound as [Hnone|Hbound]; [congruence|].
  rewrite Htruthy, bool_decide_eq_false_2, andb_false_r by done.
  pose proof (cooperative_advance target user_input Hsplit) as Hadv.
  pose proof (stored_index target (extracted env target user_input)
                user_input self) as Hidx.
  right. split; [lia|]. intros ->. cbn [length] in Hbound.
  rewrite process_next_field_eq, past_the_end_none by lia. done.
Qed.

Lemma converse_completes turns self w :
  well_formed self -> Forall cooperative turns -> turns <> [] ->
  next_missing self = Ok None
  \/ length conversation_order <= current_index self + length turns ->
  last (converse turns self w).1.1 = Some (Ok completed).
Proof.
  revert self w. induction turns as [|[env user_input] turns IH];
    intros self w Hwf Hcoop Hne Hbound; [done|].
  apply Forall_cons in Hcoop as [Hturn Hcoop]. cbn [converse length] in *.
  pose proof (process_user_input_well_formed env user_input self w Hwf) as Hwf'.
  pose proof (cooperative_turn env user_input self w turns Hwf Hturn Hbound)
    as Hstep.
  destruct turns as [|turn turns].
  - cbn. by destruct Hstep as [[-> _]|[_ ->]].
  - specialize (IH (self_after (process_user_input env user_input self w))
                   (world_after (process_user_input env user_input self w))
                   Hwf' Hcoop).
    destruct (converse (turn :: turns) _ _) as [[rs self'] w'].
    cbn [fst snd] in *. rewrite last_cons, IH; [done..|].
    destruct Hstep as [[_ Hnone]|[Hle _]]; [by left | by right].
Qed.

(** X15. A cooperative user always finishes: from any state of a session,
    if in every turn the text has at least one token and the service
    extracts a value, then within as many turns as there are plan
    positions from the pointer to the end of the plan (21 from the start)
    the reply is the completion message, and it stays so. *)
Theorem cooperative_conversation_completes turns self w :
  reachable self ->
  Forall cooperative turns ->
  turns <> [] ->
  length conversation_order <= current_index self + length turns ->
  last (converse turns self w).1.1 = Some (Ok completed).
Proof.
  intros Hwf%reachable_well_formed Hcoop Hne Hlen.
  apply converse_completes; auto.
Qed.

Lemma cooperative_conversation_completes_witness :
  last (converse two_turn_names init blank).1.1 = Some (Ok completed).
Proof.
  apply (cooperative_conversation_completes two_turn_names init blank).
  - apply reach_init.
  - unfold two_turn_names.
    apply Forall_cons; split; [|apply Forall_cons; split; [|apply Forall_replicate]];
      (split; [by vm_compute | intros field; reflexivity]).
  - discriminate.
  - vm_compute. lia.
Defined.

(** ** The page *)

(** What one run of the script leaves in the session, when [bot] and
    [msgs] are what it finds there or creates. *)
Lemma main_state env prompt state w :
  (run_state (main env prompt state w), run_world (main env prompt state w))
  = (mkSessionState
       (Some (converse (submitted [(env, prompt)])
                (default init (chatbot state)) w).1.2)
       (Some (default [] (messages state)
              ++ transcript (submitted [(env, prompt)])
                   (converse (submitted [(env, prompt)])
                      (default init (chatbot state)) w).1.1)),
     (converse (submitted [(env, prompt)]) (default init (chatbot state)) w).2).
Proof.
  unfold main, default.
  destruct state as [[bot|] [msgs|]]; cbn [chatbot messages];
    (destruct prompt as [text|]; cbn [submitted];
     [destruct (truthy (Some text)); cbn [converse transcript fst snd];
      [destruct (returned (process_user_input env text _ w));
       cbn [run_state run_world]; by rewrite <- ?app_assoc, ?app_nil_r|]|];
     cbn [run_state run_world fst snd]; by rewrite ?app_nil_r).
Qed.

Lemma converse_app turns turns' self w :
  converse (turns ++ turns') self w
  = let '(rs, self', w') := converse turns self w in
    let '(rs', self'', w'') := converse turns' self' w' in
    (rs ++ rs', self'', w'').
Proof.
  revert self w. induction turns as [|[env user_input] turns IH]; intros self w.
  - cbn. by destruct (converse turns' self w) as [[rs' self''] w''].
  - cbn [app converse]. rewrite IH.
    destruct (converse turns _ _) as [[rs self'] w'].
    by destruct (converse turns' self' w') as [[rs' self''] w''].
Qed.

Lemma converse_length turns self w :
  length (converse turns self w).1.1 = length turns.
Proof.
  revert self w. induction turns as [|[env user_input] turns IH]; intros self w;
    [done|].
  cbn [converse]. specialize (IH (self_after (process_user_input env user_input self w))
    (world_after (process_user_input env user_input self w))).
  destruct (converse turns _ _) as [[rs self'] w']. cbn in *. by rewrite IH.
Qed.

Lemma transcript_app turns turns' rs rs' :
  length rs = length turns ->
  transcript (turns ++ turns') (rs ++ rs')
  = transcript turns rs ++ transcript turns' rs'.
Proof.
  revert rs. induction turns as [|[env text] turns IH]; intros [|r rs] Hlen;
    try done.
  cbn [app transcript]. rewrite IH by (cbn in Hlen; lia).
  by rewrite <- app_assoc.
Qed.

Lemma submitted_cons run runs :
  submitted (run :: runs) = submitted [run] ++ submitted runs.
Proof.
  destruct run as [env [text|]]; cbn [submitted]; [|done].
  by destruct (truthy (Some text)).
Qed.

Lemma browse_set runs bot msgs w :
  browse runs (mkSessionState (Some bot) (Some msgs)) w
  = (mkSessionState
       (Some (converse (submitted runs) bot w).1.2)
       (Some (msgs ++ transcript (submitted runs)
                        (converse (submitted runs) bot w).1.1)),
     (converse (submitted runs) bot w).2).
Proof.
  revert bot msgs w. induction runs as [|[env prompt] runs IH]; intros bot msgs w.
  - cbn. by rewrite app_nil_r.
  - cbn [browse].
    pose proof (main_state env prompt (mkSessionState (Some bot) (Some msgs)) w)
      as Hmain. unfold default, id in Hmain.
    cbn [from_option chatbot messages] in Hmain.
    pose proof (f_equal fst Hmain) as Hstate.
    pose proof (f_equal snd Hmain) as Hworld.
    cbn [fst snd] in Hstate, Hworld. rewrite Hstate, Hworld, IH.
    rewrite (submitted_cons (env, prompt) runs), converse_app.
    pose proof (converse_length (submitted [(env, prompt)]) bot w) as Hlen.
    destruct (converse (submitted [(env, prompt)]) bot w) as [[rs self'] w'].
    cbn [fst snd] in *.
    destruct (converse (submitted runs) self' w') as [[rs' self''] w''].
    cbn [fst snd] in *. rewrite transcript_app by done. by rewrite app_assoc.
Qed.

(** X16. The page adds nothing to the engine. After any runs of the
    script (at least one), the chatbot kept in the session and the outside
    world are those of the conversation made of the submitted texts, in
    order, runs without a submitted text leaving no trace; and [messages]
    holds, after what it held before, each submitted text followed by the
    engine's reply, or by nothing when the engine raised. *)
Theorem browse_is_converse runs state w :
  runs <> [] ->
  browse runs state w
  = (mkSessionState
       (Some (converse (submitted runs) (default init (chatbot state)) w).1.2)
       (Some (default [] (messages state)
              ++ transcript (submitted runs)
                   (converse (submitted runs)
                      (default init (chatbot state)) w).1.1)),
     (converse (submitted runs) (default init (chatbot state)) w).2).
Proof.
  destruct runs as [|[env prompt] runs]; [done|]. intros _.
  cbn [browse].
  pose proof (main_state env prompt state w) as Hmain.
  pose proof (f_equal fst Hmain) as Hstate.
  pose proof (f_equal snd Hmain) as Hworld.
  cbn [fst snd] in Hstate, Hworld. rewrite Hstate, Hworld, browse_set.
  rewrite (submitted_cons (env, prompt) runs), converse_app.
  pose proof (converse_length (submitted [(env, prompt)])
                (default init (chatbot state)) w) as Hlen.
  destruct (converse (submitted [(env, prompt)]) _ w) as [[rs self'] w'].
  cbn [fst snd] in *.
  destruct (converse (submitted runs) self' w') as [[rs' self''] w''].
  cbn [fst snd] in *. rewrite transcript_app by done. by rewrite app_assoc.
Qed.

Lemma browse_is_converse_witness :
  browse [(replies "Jane", None); (replies "Jane", Some "Jane");
          (replies "", Some ""); (replies "Doe", Some "   ")]
    new_session blank
  = (mkSessionState (Some after_jane)
       (Some [mkMessage "user" "Jane";
              mkMessage "assistant" "What is your last name?";
              mkMessage "user" "   "]),
     mkWorld None
       [ChatCompletion (extract_prompt "first_name") "Jane";
        ChatCompletion (extract_prompt "last_name") "   "]).
Proof.
  rewrite (browse_is_converse
             [(replies "Jane", None); (replies "Jane", Some "Jane");
              (replies "", Some ""); (replies "Doe", Some "   ")]
             new_session blank) by discriminate.
  vm_compute. reflexivity.
Defined.

Lemma index_error_on_blank_name_witness :
  returned (process_user_input (replies "Doe") "   " after_jane blank)
  = Raise IndexError.
Proof.
  apply (index_error_on_blank_name (replies "Doe") "   " after_jane blank).
  exists "last_name", "Doe". repeat split; vm_compute; congruence.
Defined.

(** ** What is saved *)

Lemma process_next_field_saved env self w :
  returned (process_next_field env self w) = Ok completed ->
  world_after (process_next_field env self w)
  = world_after (save_to_csv env self w).
Proof.
  rewrite process_next_field_eq.
  destruct (next_missing self) as [[field|]|e]; cbn [returned world_after];
    [|done|discriminate].
  intros [= H]. by apply generate_question_not_completed in H.
Qed.

Lemma save_to_csv_file env self w :
  responses_csv (world_after (save_to_csv env self w))
  = match to_csv_exception env with
    | None => Some (append_row (fields self) (responses_csv w))
    | Some _ => responses_csv w
    end.
Proof. unfold save_to_csv. by destruct (to_csv_exception env). Qed.

(** X17. When [process_user_input] returns the completion message, what
    it saves is the record as that call leaves it: if to_csv works, the
    file is the old file with that record as one more row (after a header
    if the file is new); if to_csv raises, the file is as it was, and the
    completion message is returned all the same. *)
Theorem completion_saves_current_record env user_input self w :
  returned (process_user_input env user_input self w) = Ok completed ->
  responses_csv (world_after (process_user_input env user_input self w))
  = match to_csv_exception env with
    | None =>
        Some (append_row
                (fields (self_after (process_user_input env user_input self w)))
                (responses_csv w))
    | Some _ => responses_csv w
    end.
Proof.
  rewrite process_user_input_self, process_user_input_eq.
  destruct (next_missing self) as [[target|]|e]; cbn zeta;
    [|intros _; apply save_to_csv_file|discriminate].
  destruct (truthy _).
  - destruct (_ && _); [discriminate|]. intros Hdone.
    rewrite (process_next_field_saved _ _ _ Hdone). by rewrite save_to_csv_file.
  - intros [= H]. by apply generate_question_not_completed in H.
Qed.

Lemma completion_saves_current_record_witness :
  responses_csv
    (world_after
       (process_user_input (replies "yes") "yes"
          (mkChatbot (<["whatsapp_opt_in" := PyNone]> (fields answered)) 20) blank))
  = Some (append_row
            (fields (self_after
               (process_user_input (replies "yes") "yes"
                  (mkChatbot (<["whatsapp_opt_in" := PyNone]> (fields answered)) 20)
                  blank)))
            None).
Proof.
  apply (completion_saves_current_record (replies "yes") "yes"
           (mkChatbot (<["whatsapp_opt_in" := PyNone]> (fields answered)) 20) blank).
  vm_compute. reflexivity.
Defined.

(** ** The pointer and the fields a call fills *)













(** What the amended C3 leaves out. With [last_name] as the target, a
    single-token answer moves the pointer past [last_name] and fills no
    plan field, and a two-token answer moves it by two, past [telephone],
    which is still [None] and is not asked for. *)
Lemma last_name_turn_passes_unfilled_fields :
  current_index after_jane = 1 /\
  current_index
    (self_after (process_user_input (replies "Doe") "Doe" after_jane blank)) = 2 /\
  newly_filled after_jane
    (self_after (process_user_input (replies "Doe") "Doe" after_jane blank)) = [] /\
  current_index
    (self_after (process_user_input (replies "Smith") "John Smith" after_jane blank))
  = 3 /\
  newly_filled after_jane
    (self_after (process_user_input (replies "Smith") "John Smith" after_jane blank))
  = ["last_name"] /\
  fields
    (self_after (process_user_input (replies "Smith") "John Smith" after_jane blank))
    !! "telephone" = Some PyNone /\
  returned (process_user_input (replies "Smith") "John Smith" after_jane blank)
  = Ok "What is your email address?".
Proof. repeat (split; [vm_compute; reflexivity|]). vm_compute. reflexivity. Qed.
